(** * Selection-to-list-items parser of the Word task pane

    Shallow embedding of [src/taskpane/taskpane.ts]: the parser
    [parseItems], its helper [stripPrefix], and the bullet-conversion flow
    [bulletsFromSelection] that consumes the parser's result.

    A JavaScript string is a finite sequence of UTF-16 code units; it is
    modelled as a list of integers.  The string methods the source calls
    ([trim], [replace] with a global pattern, [includes], [split]) and the
    one non-literal regular expression (the prefix pattern of
    [stripPrefix]) are given as executable functions. *)

From Stdlib Require Import ZArith List Bool Lia.
From Stdlib Require Import Strings.String Strings.Ascii.
Import ListNotations.

Open Scope Z_scope.

(** ** Strings as code-unit sequences *)

Definition jsstring := list Z.

(** An ASCII literal read as a JavaScript string. *)
Definition str (s : string) : jsstring :=
  map (fun a => Z.of_N (N_of_ascii a)) (list_ascii_of_string s).

Module Ch.
Definition TAB : Z := 9.
Definition LF : Z := 10.
Definition VT : Z := 11.
Definition FF : Z := 12.
Definition CR : Z := 13.
Definition SP : Z := 32.
Definition lparen : Z := 40.
Definition rparen : Z := 41.
Definition star : Z := 42.
Definition comma : Z := 44.
Definition hyphen : Z := 45.
Definition dot : Z := 46.
Definition backslash : Z := 92.
Definition n : Z := 110.
Definition r : Z := 114.
Definition NBSP : Z := 160.
Definition bullet : Z := 8226.      (* U+2022 *)
Definition LS : Z := 8232.          (* U+2028 *)
Definition PS : Z := 8233.          (* U+2029 *)
End Ch.

(** ECMAScript [WhiteSpace] and [LineTerminator] code units: the set that
    [String.prototype.trim] removes and that the class escape [\s]
    matches. *)
Definition isWhiteSpace (c : Z) : bool :=
  (c =? 9) || (c =? 10) || (c =? 11) || (c =? 12) || (c =? 13) ||
  (c =? 32) || (c =? 160) || (c =? 5760) ||
  ((8192 <=? c) && (c <=? 8202)) ||
  (c =? 8232) || (c =? 8233) || (c =? 8239) || (c =? 8287) ||
  (c =? 12288) || (c =? 65279).

(** The class escape [\d] (no unicode flag): the ten ASCII digits. *)
Definition isDigit (c : Z) : bool := (48 <=? c) && (c <=? 57).

(** The four line-break code units. *)
Definition isLineBreak (c : Z) : bool :=
  (c =? Ch.LF) || (c =? Ch.CR) || (c =? Ch.LS) || (c =? Ch.PS).

(** ** String methods *)

Fixpoint dropWhile (p : Z -> bool) (s : jsstring) : jsstring :=
  match s with
  | [] => []
  | c :: s' => if p c then dropWhile p s' else s
  end.

Definition trimStart (s : jsstring) : jsstring := dropWhile isWhiteSpace s.

Definition trimEnd (s : jsstring) : jsstring :=
  rev (dropWhile isWhiteSpace (rev s)).

(** [s.trim()] *)
Definition trim (s : jsstring) : jsstring := trimEnd (trimStart s).

(** [!s] on a string and the predicate of [filter(Boolean)]: the empty
    string is the only falsy string. *)
Definition isEmpty (s : jsstring) : bool :=
  match s with [] => true | _ :: _ => false end.

Definition truthy (s : jsstring) : bool := negb (isEmpty s).

(** [s.includes(c)] for a one-unit needle. *)
Definition includes (c : Z) (s : jsstring) : bool := existsb (Z.eqb c) s.

(** [s.replace(/ab/g, rep)] for a pattern of two literal code units:
    matches are found left to right and do not overlap. *)
Fixpoint replace2 (a b : Z) (rep : jsstring) (s : jsstring) : jsstring :=
  match s with
  | [] => []
  | x :: tl =>
      match tl with
      | [] => [x]
      | y :: s' =>
          if (x =? a) && (y =? b) then rep ++ replace2 a b rep s'
          else x :: replace2 a b rep tl
      end
  end.

(** [s.replace(/a/g, rep)] for a pattern of one literal code unit. *)
Fixpoint replace1 (a : Z) (rep : jsstring) (s : jsstring) : jsstring :=
  match s with
  | [] => []
  | x :: s' => if x =? a then rep ++ replace1 a rep s' else x :: replace1 a rep s'
  end.

(** [s.split(sep)] where every separator is one code unit satisfying
    [sep]: the result has one more segment than there are separators. *)
Fixpoint split (sep : Z -> bool) (s : jsstring) : list jsstring :=
  match s with
  | [] => [[]]
  | c :: s' =>
      if sep c then [] :: split sep s'
      else match split sep s' with
           | seg :: segs => (c :: seg) :: segs
           | [] => [[c]]
           end
  end.

(** ** Regular expressions

    A backtracking matcher in continuation-passing style, with the
    ECMAScript priorities: the left alternative is tried first and the
    quantifiers are greedy. *)

Inductive regex : Type :=
| Chr (c : Z)
| Cls (p : Z -> bool)
| Seq (r1 r2 : regex)
| Alt (r1 r2 : regex)
| Star (r : regex).

Definition Plus (r : regex) : regex := Seq r (Star r).

Section Matcher.
Context {A : Type}.

Definition cont := jsstring -> option A.

(** Greedy iteration of the matcher [m]; an iteration that consumes
    nothing is rejected, as in ECMAScript. *)
Fixpoint star_loop (m : jsstring -> cont -> option A)
         (fuel : nat) (s : jsstring) (k : cont) : option A :=
  match fuel with
  | O => k s
  | S fuel' =>
      match m s (fun s' =>
                   if (List.length s' <? List.length s)%nat
                   then star_loop m fuel' s' k else None) with
      | Some x => Some x
      | None => k s
      end
  end.

Fixpoint rmatch (r : regex) (s : jsstring) (k : cont) : option A :=
  match r with
  | Chr c =>
      match s with
      | x :: s' => if x =? c then k s' else None
      | [] => None
      end
  | Cls p =>
      match s with
      | x :: s' => if p x then k s' else None
      | [] => None
      end
  | Seq r1 r2 => rmatch r1 s (fun s' => rmatch r2 s' k)
  | Alt r1 r2 =>
      match rmatch r1 s k with
      | Some x => Some x
      | None => rmatch r2 s k
      end
  | Star r1 => star_loop (rmatch r1) (List.length s) s k
  end.
End Matcher.

(** [exec_at_start r s]: the remainder of [s] after the match of [r]
    anchored at index 0, if any. *)
Definition exec_at_start (r : regex) (s : jsstring) : option jsstring :=
  rmatch r s (fun rest => Some rest).

(** [s.replace(/^r/g, "")]: without the multiline flag the anchor only
    holds at index 0, so at most the one match at the start is removed. *)
Definition replace_anchored (r : regex) (s : jsstring) : jsstring :=
  match exec_at_start r s with
  | Some rest => rest
  | None => s
  end.

(** ** The parser *)

Definition isDotOrParen (c : Z) : bool := (c =? Ch.dot) || (c =? Ch.rparen).

(** The group [(\u2022|\-|\*|\(\d+\)|\d+[.)])] *)
Definition bulletOrNumber : regex :=
  Alt (Chr Ch.bullet)
 (Alt (Chr Ch.hyphen)
 (Alt (Chr Ch.star)
 (Alt (Seq (Chr Ch.lparen) (Seq (Plus (Cls isDigit)) (Chr Ch.rparen)))
      (Seq (Plus (Cls isDigit)) (Cls isDotOrParen))))).

(** [(\u2022|\-|\*|\(\d+\)|\d+[.)])\s*], to be matched at the start. *)
Definition prefix_re : regex := Seq bulletOrNumber (Star (Cls isWhiteSpace)).

Definition stripPrefix (s : jsstring) : jsstring :=
  trim (replace_anchored prefix_re s).

(** Literal escape sequences, then real line breaks, into [LF]. *)
Definition normalizeEscapes (t : jsstring) : jsstring :=
  replace2 Ch.backslash Ch.n [Ch.LF] (replace2 Ch.backslash Ch.r [Ch.LF] t).

Definition normalizeBreaks (t : jsstring) : jsstring :=
  replace1 Ch.PS [Ch.LF]
    (replace1 Ch.LS [Ch.LF]
       (replace1 Ch.CR [Ch.LF]
          (replace2 Ch.CR Ch.LF [Ch.LF] t))).

Definition normalize (t : jsstring) : jsstring :=
  normalizeBreaks (normalizeEscapes t).

Definition isDelimiter (c : Z) : bool :=
  (c =? Ch.backslash) || (c =? Ch.comma).

Definition isLF (c : Z) : bool := c =? Ch.LF.

(** The tail shared by both return statements:
    [.map((s) => s.trim()).filter(Boolean).map(stripPrefix)]. *)
Definition toItems (segments : list jsstring) : list jsstring :=
  map stripPrefix (filter truthy (map trim segments)).

Definition parseItems (selectionText : jsstring) : list jsstring :=
  if isEmpty selectionText then []
  else
    let t := trim selectionText in
    if isEmpty t then []
    else
      let t := normalize t in
      if negb (includes Ch.LF t)
         && (includes Ch.backslash t || includes Ch.comma t)
      then toItems (split isDelimiter t)
      else toItems (split isLF t).

(** ** The bullet-conversion flow

    The host document and the task pane's DOM are the state the flow acts
    on.  A computation takes a world to a new world and either a value or
    the error it threw. *)

Inductive StatusKind : Type := info | success | error.

(** A thrown value; only its [message] is ever read ([err?.message]). *)
Record Err : Type := { message : option string }.

Inductive InsertLocation : Type := locReplace | locAfter | locEnd.

(** Requests issued to the document, in program order. *)
Inductive DocOp : Type :=
| RangeInsertText (text : jsstring) (loc : InsertLocation)
| RangeInsertParagraph (text : jsstring) (loc : InsertLocation)
| StartNewList
| ListInsertParagraph (text : jsstring) (loc : InsertLocation).

(** The [#status] element: its text and the one [status--kind] class. *)
Record StatusEl : Type := { textContent : string; statusClass : option StatusKind }.

(** Each looked-up element may be missing ([getElementById] gives null);
    a control is represented by its [disabled] flag. *)
Record World : Type := {
  insertBtn : option bool;
  bulletsBtn : option bool;
  titleInput : option bool;
  statusEl : option StatusEl;
  doc : list DocOp;
  console : list Err
}.

(** What the host answers in one invocation: the text of the selection
    and the outcome of each of the two [context.sync()] calls. *)
Record Host : Type := {
  selectionText : jsstring;
  syncLoad : option Err;
  syncWrite : option Err
}.

Definition M (A : Type) : Type := World -> World * (Err + A).

Definition ret {A} (a : A) : M A := fun w => (w, inr a).

Definition throw {A} (e : Err) : M A := fun w => (w, inl e).

Definition bind {A B} (m : M A) (f : A -> M B) : M B :=
  fun w => match m w with
           | (w', inr a) => f a w'
           | (w', inl e) => (w', inl e)
           end.

Notation "x <- m ;; k" := (bind m (fun x => k))
  (at level 61, m at next level, right associativity).
Notation "m ;; k" := (bind m (fun _ => k))
  (at level 61, right associativity).

(** [try { body } catch (err) { handler } finally { final }] *)
Definition try_catch_finally (body : M unit) (handler : Err -> M unit)
           (final : M unit) : M unit :=
  fun w =>
    match body w with
    | (w', inr _) => final w'
    | (w', inl e) =>
        match handler e w' with
        | (w'', inr _) => final w''
        | (w'', inl e') =>
            match final w'' with
            | (w3, inr _) => (w3, inl e')
            | (w3, inl e3) => (w3, inl e3)
            end
        end
    end.

Definition modify (f : World -> World) : M unit := fun w => (f w, inr tt).

Definition setBusy (isBusy : bool) : M unit :=
  modify (fun w =>
    {| insertBtn := option_map (fun _ => isBusy) (insertBtn w);
       bulletsBtn := option_map (fun _ => isBusy) (bulletsBtn w);
       titleInput := option_map (fun _ => isBusy) (titleInput w);
       statusEl := statusEl w; doc := doc w; console := console w |}).

Definition setStatus (msg : string) (kind : StatusKind) : M unit :=
  modify (fun w =>
    {| insertBtn := insertBtn w; bulletsBtn := bulletsBtn w;
       titleInput := titleInput w;
       statusEl := option_map
                     (fun _ => {| textContent := msg; statusClass := Some kind |})
                     (statusEl w);
       doc := doc w; console := console w |}).

Definition issue (op : DocOp) : M unit :=
  modify (fun w =>
    {| insertBtn := insertBtn w; bulletsBtn := bulletsBtn w;
       titleInput := titleInput w; statusEl := statusEl w;
       doc := doc w ++ [op]; console := console w |}).

Definition console_error (e : Err) : M unit :=
  modify (fun w =>
    {| insertBtn := insertBtn w; bulletsBtn := bulletsBtn w;
       titleInput := titleInput w; statusEl := statusEl w;
       doc := doc w; console := console w ++ [e] |}).

(** [await context.sync()] *)
Definition sync (outcome : option Err) : M unit :=
  match outcome with
  | Some e => throw e
  | None => ret tt
  end.

(** The call [parseItems(range.text)] as a step of the flow. *)
Definition parseItemsM (text : jsstring) : M (list jsstring) :=
  ret (parseItems text).

(** [for (let i = 1; i < items.length; i++) list.insertParagraph(items[i], end)] *)
Fixpoint insertRest (rest : list jsstring) : M unit :=
  match rest with
  | [] => ret tt
  | item :: rest' => issue (ListInsertParagraph item locEnd) ;; insertRest rest'
  end.

Definition noItemsMessage : string :=
  "Select text first (one item per line, or apple\banana\cherry).".

(** The batch passed to [Word.run]. *)
Definition bulletsBatch (h : Host) : M unit :=
  sync (syncLoad h) ;;
  items <- parseItemsM (selectionText h) ;;
  match items with
  | [] => setStatus noItemsMessage error
  | first :: rest =>
      issue (RangeInsertText [] locReplace) ;;
      issue (RangeInsertParagraph first locAfter) ;;
      issue StartNewList ;;
      insertRest rest ;;
      sync (syncWrite h)
  end.

(** [err?.message || "Check console."] *)
Definition errorText (e : Err) : string :=
  match message e with
  | Some m => if String.eqb m "" then "Check console." else m
  | None => "Check console."
  end.

Definition bulletsFromSelection (h : Host) : M unit :=
  setBusy true ;;
  setStatus "Creating bullets..." info ;;
  try_catch_finally
    (bulletsBatch h ;;
     setStatus "Bullets created." success)
    (fun err =>
       console_error err ;;
       setStatus (String.append "Error creating bullets: " (errorText err)) error)
    (setBusy false).

(** A task pane with every element present, an untouched document. *)
Definition readyWorld : World :=
  {| insertBtn := Some false; bulletsBtn := Some false; titleInput := Some false;
     statusEl := Some {| textContent := "Ready."; statusClass := Some success |};
     doc := []; console := [] |}.

Definition selecting (text : jsstring) : Host :=
  {| selectionText := text; syncLoad := None; syncWrite := None |}.

(** ** The title and the template flow *)

Definition defaultTitle : jsstring := str "McCarren Office Challenge".

(** [getTitle], given [el?.value]: [None] when the input element is
    missing. *)
Definition getTitle (value : option jsstring) : jsstring :=
  let title := trim (match value with Some v => v | None => [] end) in
  if isEmpty title then defaultTitle else title.

Inductive BuiltInStyle : Type := heading1 | heading2.

(** Requests of the template batch.  A paragraph is referred to by the
    rank, from 0, of the [body.insertParagraph] call that returned it. *)
Inductive BodyOp : Type :=
| BodyInsertParagraph (text : jsstring) (loc : InsertLocation)
| SetStyleBuiltIn (paragraph : nat) (style : BuiltInStyle)
| SetFontItalic (paragraph : nat) (italic : bool)
| SetFontColor (paragraph : nat) (color : string)
| ParagraphStartNewList (paragraph : nat)
| ListInsert (text : jsstring) (loc : InsertLocation).

(** The body of the batch of [insertTemplate], request by request;
    [now] is the text of [new Date().toLocaleString()]. *)
Definition templateRequests (title now : jsstring) : list BodyOp :=
  [ BodyInsertParagraph [] locEnd;
    BodyInsertParagraph title locEnd;                                (* h1 *)
    SetStyleBuiltIn 1 heading1;
    BodyInsertParagraph (str "Generated: " ++ now) locEnd;           (* meta *)
    SetFontItalic 2 true;
    BodyInsertParagraph (str "Summary") locEnd;                      (* h2Summary *)
    SetStyleBuiltIn 3 heading2;
    BodyInsertParagraph (Ch.bullet :: str " Purpose: (write 1 sentence)") locEnd;
    BodyInsertParagraph (Ch.bullet :: str " Outcome: (write 1 sentence)") locEnd;
    BodyInsertParagraph (Ch.bullet :: str " Next Step: (write 1 sentence)") locEnd;
    BodyInsertParagraph (str "Key Points") locEnd;                   (* h2Key *)
    SetStyleBuiltIn 7 heading2;
    BodyInsertParagraph (str "What was done") locEnd;                (* first *)
    ParagraphStartNewList 8;
    ListInsert (str "Why it matters") locEnd;
    ListInsert (str "What happens next") locEnd;
    BodyInsertParagraph (str "Notes") locEnd;                        (* h2Notes *)
    SetStyleBuiltIn 9 heading2;
    BodyInsertParagraph (str "(Add any details here.)") locEnd;      (* notes *)
    SetFontColor 10 "#2b579a" ].

(** The task pane together with the value typed into [#titleInput] and
    the template batches sent to the document body. *)
Record TemplateWorld : Type := {
  pane : World;
  titleValue : jsstring;
  body : list (list BodyOp)
}.

(** What the host answers in one invocation of [insertTemplate]. *)
Record TemplateHost : Type := {
  now : jsstring;
  syncTemplate : option Err
}.

Definition TM (A : Type) : Type := TemplateWorld -> TemplateWorld * (Err + A).

Definition retT {A} (a : A) : TM A := fun tw => (tw, inr a).

Definition bindT {A B} (m : TM A) (f : A -> TM B) : TM B :=
  fun tw => match m tw with
            | (tw', inr a) => f a tw'
            | (tw', inl e) => (tw', inl e)
            end.

Declare Scope template_scope.
Delimit Scope template_scope with template.
Notation "x <- m ;; k" := (bindT m (fun x => k))
  (at level 61, m at next level, right associativity) : template_scope.
Notation "m ;; k" := (bindT m (fun _ => k))
  (at level 61, right associativity) : template_scope.

(** A step of the task pane, run on the pane of the template world. *)
Definition onPane {A} (m : M A) : TM A :=
  fun tw => match m (pane tw) with
            | (w', r) =>
                ({| pane := w'; titleValue := titleValue tw; body := body tw |}, r)
            end.

Definition try_catch_finallyT (attempt : TM unit) (handler : Err -> TM unit)
           (final : TM unit) : TM unit :=
  fun tw =>
    match attempt tw with
    | (tw', inr _) => final tw'
    | (tw', inl e) =>
        match handler e tw' with
        | (tw'', inr _) => final tw''
        | (tw'', inl e') =>
            match final tw'' with
            | (tw3, inr _) => (tw3, inl e')
            | (tw3, inl e3) => (tw3, inl e3)
            end
        end
    end.

(** [getTitle()] as a step: the value is read when the element exists. *)
Definition getTitleT : TM jsstring :=
  fun tw =>
    (tw, inr (getTitle (match titleInput (pane tw) with
                        | Some _ => Some (titleValue tw)
                        | None => None
                        end))).

(** The batch passed to [Word.run] by [insertTemplate]. *)
Definition templateBatch (title : jsstring) (h : TemplateHost) : TM unit :=
  fun tw =>
    let tw' := {| pane := pane tw; titleValue := titleValue tw;
                  body := body tw ++ [templateRequests title (now h)] |} in
    match syncTemplate h with
    | Some e => (tw', inl e)
    | None => (tw', inr tt)
    end.

Definition insertTemplate (h : TemplateHost) : TM unit :=
  (title <- getTitleT ;;
   onPane (setBusy true) ;;
   onPane (setStatus "Inserting template..." info) ;;
   try_catch_finallyT
     (templateBatch title h ;;
      onPane (setStatus "Template inserted." success))
     (fun err =>
        onPane (console_error err) ;;
        onPane (setStatus (String.append "Error inserting template: " (errorText err))
                          error))
     (onPane (setBusy false)))%template.

(** ** Notions used in the statements *)

Definition is_suffix (s' s : jsstring) : Prop := exists pre, s = pre ++ s'.

(** Whatever a matcher hands to its continuation is a suffix of what it
    was given. *)
Definition consumes {A : Type} (m : jsstring -> @cont A -> option A) : Prop :=
  forall s k x, m s k = Some x -> exists s', is_suffix s' s /\ k s' = Some x.

(** What the prefix pattern leaves of [s], read off the first code unit. *)
Definition afterPrefix (s : jsstring) : option jsstring :=
  match s with
  | [] => None
  | x :: s' =>
      if (x =? Ch.bullet) || (x =? Ch.hyphen) || (x =? Ch.star)
      then Some (dropWhile isWhiteSpace s')
      else if x =? Ch.lparen then
        match s' with
        | y :: s'' =>
            if isDigit y then
              match dropWhile isDigit s'' with
              | z :: rest =>
                  if z =? Ch.rparen then Some (dropWhile isWhiteSpace rest) else None
              | [] => None
              end
            else None
        | [] => None
        end
      else if isDigit x then
        match dropWhile isDigit s' with
        | z :: rest =>
            if isDotOrParen z then Some (dropWhile isWhiteSpace rest) else None
        | [] => None
        end
      else None
  end.

(** The prefixes in the words of the specification: a bullet glyph, a
    hyphen, an asterisk, a parenthesized integer, or an integer followed
    by a full stop or a closing parenthesis. *)
Inductive LeadingPrefix : jsstring -> Prop :=
| LP_bullet : LeadingPrefix [Ch.bullet]
| LP_hyphen : LeadingPrefix [Ch.hyphen]
| LP_asterisk : LeadingPrefix [Ch.star]
| LP_parenthesized ds :
    ds <> [] -> forallb isDigit ds = true ->
    LeadingPrefix (Ch.lparen :: ds ++ [Ch.rparen])
| LP_numbered ds c :
    ds <> [] -> forallb isDigit ds = true -> isDotOrParen c = true ->
    LeadingPrefix (ds ++ [c]).

Fixpoint takeWhile (p : Z -> bool) (s : jsstring) : jsstring :=
  match s with
  | [] => []
  | c :: s' => if p c then c :: takeWhile p s' else []
  end.

(** The segments, read with one separator between neighbours, spell the
    text: they occur in the text in the order of the list. *)
Inductive Interleaved (sep : Z -> bool) : list jsstring -> jsstring -> Prop :=
| Interleaved_last seg : Interleaved sep [seg] seg
| Interleaved_cons seg c segs t :
    sep c = true -> Interleaved sep segs t ->
    Interleaved sep (seg :: segs) (seg ++ c :: t).

Definition count (p : Z -> bool) (s : jsstring) : nat := List.length (filter p s).

(** [segments.join(c)] *)
Fixpoint join (c : Z) (segments : list jsstring) : jsstring :=
  match segments with
  | [] => []
  | [seg] => seg
  | seg :: segs => seg ++ c :: join c segs
  end.

(** The separator the decision at the two [return]s settles on. *)
Definition chosenSeparator (t : jsstring) : Z -> bool :=
  if negb (includes Ch.LF t) && (includes Ch.backslash t || includes Ch.comma t)
  then isDelimiter else isLF.

(** [Subseq l1 l2]: [l1] is [l2] with some entries left out. *)
Inductive Subseq {A : Type} : list A -> list A -> Prop :=
| Subseq_nil : Subseq [] []
| Subseq_skip x l1 l2 : Subseq l1 l2 -> Subseq l1 (x :: l2)
| Subseq_take x l1 l2 : Subseq l1 l2 -> Subseq (x :: l1) (x :: l2).

(** [hasWord s]: some unit of [s] is not white space. *)
Definition hasWord (s : jsstring) : bool :=
  existsb (fun c => negb (isWhiteSpace c)) s.

(** The requests the flow issues for a list of items: none for the empty
    list; otherwise the selection is replaced, the first item becomes a
    paragraph that starts a list, and the others are appended to it. *)
Definition requestsFor (items : list jsstring) : list DocOp :=
  match items with
  | [] => []
  | first :: rest =>
      [RangeInsertText [] locReplace; RangeInsertParagraph first locAfter;
       StartNewList]
      ++ map (fun item => ListInsertParagraph item locEnd) rest
  end.

(** [is_infix x t]: [x] occurs in [t] as a contiguous piece. *)
Definition is_infix (x t : jsstring) : Prop := exists a b, t = a ++ x ++ b.

(** The number of code units in a list of strings. *)
Definition totalLength (items : list jsstring) : nat :=
  list_sum (map (@List.length Z) items).

(** An item that parsing would give back as it is: [stripPrefix] leaves
    it alone, it is not empty, and it holds neither a line break nor a
    backslash. *)
Definition plainItem (x : jsstring) : Prop :=
  stripPrefix x = x /\ x <> [] /\
  forall c, In c x -> isLineBreak c = false /\ c <> Ch.backslash.

(** The texts of the paragraphs that a list of requests inserts, in the
    order of the requests. *)
Fixpoint paragraphTexts (ops : list DocOp) : list jsstring :=
  match ops with
  | [] => []
  | RangeInsertParagraph text _ :: ops' => text :: paragraphTexts ops'
  | ListInsertParagraph text _ :: ops' => text :: paragraphTexts ops'
  | _ :: ops' => paragraphTexts ops'
  end.

(** The status shown once the element exists. *)
Definition shows (msg : string) (kind : StatusKind) (before : option StatusEl)
  : option StatusEl :=
  option_map (fun _ => {| textContent := msg; statusClass := Some kind |}) before.

(** Every control that exists is enabled. *)
Definition enabled (before after : World) : Prop :=
  insertBtn after = option_map (fun _ => false) (insertBtn before) /\
  bulletsBtn after = option_map (fun _ => false) (bulletsBtn before) /\
  titleInput after = option_map (fun _ => false) (titleInput before).

(** [hasPair a b s]: the unit [a] occurs in [s] immediately followed by
    the unit [b]. *)
Fixpoint hasPair (a b : Z) (s : jsstring) : bool :=
  match s with
  | [] => false
  | x :: tl =>
      match tl with
      | [] => false
      | y :: _ => ((x =? a) && (y =? b)) || hasPair a b tl
      end
  end.

(** [InOrder items s]: the items occur in [s] one after the other,
    without overlap, in the order of the list. *)
Fixpoint InOrder (items : list jsstring) (s : jsstring) : Prop :=
  match items with
  | [] => True
  | x :: items' => exists pre rest, s = pre ++ x ++ rest /\ InOrder items' rest
  end.


(** * Properties *)

(** ** Trimming *)

Section DropWhile.
Variable p : Z -> bool.

Lemma dropWhile_In c s : In c (dropWhile p s) -> In c s.
Proof.
  induction s as [|x s IH]; simpl; auto.
  destruct (p x); simpl; auto.
Qed.

Lemma dropWhile_head s x s' : dropWhile p s = x :: s' -> p x = false.
Proof.
  induction s as [|y s IH]; simpl; [discriminate|].
  destruct (p y) eqn:E; auto.
  intros H; injection H as -> _; assumption.
Qed.

Lemma dropWhile_idem s : dropWhile p (dropWhile p s) = dropWhile p s.
Proof.
  induction s as [|x s IH]; simpl; auto.
  destruct (p x) eqn:E; auto.
  simpl; rewrite E; reflexivity.
Qed.

Lemma dropWhile_all s : forallb p s = true -> dropWhile p s = [].
Proof.
  induction s as [|x s IH]; simpl; auto.
  destruct (p x); simpl; auto; discriminate.
Qed.

Lemma dropWhile_app_all w s : forallb p w = true -> dropWhile p (w ++ s) = dropWhile p s.
Proof.
  induction w as [|x w IH]; simpl; auto.
  destruct (p x); simpl; auto; discriminate.
Qed.

Lemma dropWhile_snoc s c : p c = false -> dropWhile p (s ++ [c]) = dropWhile p s ++ [c].
Proof.
  intros Hc; induction s as [|x s IH]; simpl.
  - rewrite Hc; reflexivity.
  - destruct (p x); auto.
Qed.

Lemma dropWhile_start x s : p x = false -> dropWhile p (x :: s) = x :: s.
Proof. intros H; simpl; rewrite H; reflexivity. Qed.
End DropWhile.

Lemma trimEnd_cons c s : isWhiteSpace c = false -> trimEnd (c :: s) = c :: trimEnd s.
Proof.
  intros Hc; unfold trimEnd; simpl.
  rewrite dropWhile_snoc by assumption.
  rewrite rev_app_distr; reflexivity.
Qed.

Lemma trimEnd_idem s : trimEnd (trimEnd s) = trimEnd s.
Proof.
  unfold trimEnd; rewrite rev_involutive, dropWhile_idem; reflexivity.
Qed.

Lemma trimEnd_In c s : In c (trimEnd s) -> In c s.
Proof.
  unfold trimEnd; intros H.
  apply in_rev in H; apply dropWhile_In in H; apply in_rev in H; assumption.
Qed.

Lemma trim_In c s : In c (trim s) -> In c s.
Proof.
  unfold trim, trimStart; intros H.
  apply trimEnd_In in H; eapply dropWhile_In; eassumption.
Qed.

(** Trimming is idempotent. *)
Lemma trim_idem s : trim (trim s) = trim s.
Proof.
  unfold trim, trimStart.
  destruct (dropWhile isWhiteSpace s) as [|c a] eqn:E; [reflexivity|].
  pose proof (dropWhile_head _ _ _ _ E) as Hc.
  rewrite (trimEnd_cons c a Hc), (dropWhile_start _ c _ Hc).
  rewrite <- (trimEnd_cons c a Hc); apply trimEnd_idem.
Qed.

Lemma trim_blank s : forallb isWhiteSpace s = true -> trim s = [].
Proof.
  intros H; unfold trim, trimStart; rewrite dropWhile_all by assumption; reflexivity.
Qed.

(** Leading white space does not survive the trim that follows. *)
Lemma trim_dropWhile s : trim (dropWhile isWhiteSpace s) = trim s.
Proof. unfold trim, trimStart; rewrite dropWhile_idem; reflexivity. Qed.

(** ** The matcher *)

Lemma is_suffix_refl s : is_suffix s s.
Proof. exists []; reflexivity. Qed.

Lemma is_suffix_trans a b c : is_suffix a b -> is_suffix b c -> is_suffix a c.
Proof.
  intros [p1 ->] [p2 ->]; exists (p2 ++ p1); rewrite app_assoc; reflexivity.
Qed.

Lemma is_suffix_cons x a b : is_suffix a b -> is_suffix a (x :: b).
Proof. intros [p ->]; exists (x :: p); reflexivity. Qed.

Lemma is_suffix_In c a b : is_suffix a b -> In c a -> In c b.
Proof. intros [p ->] H; apply in_or_app; right; assumption. Qed.

Section MatcherFacts.
Context {A : Type}.

Lemma star_loop_consumes (m : jsstring -> @cont A -> option A) :
  consumes m -> forall fuel, consumes (star_loop m fuel).
Proof.
  intros Hm fuel; induction fuel as [|fuel IH]; intros s k x; simpl.
  - intros H; exists s; split; [apply is_suffix_refl | assumption].
  - destruct (m s _) as [y|] eqn:E.
    + intros H; injection H as ->.
      apply Hm in E; destruct E as (s1 & Hs1 & E).
      destruct (Nat.ltb _ _); [|discriminate].
      apply IH in E; destruct E as (s2 & Hs2 & E).
      exists s2; split; [eapply is_suffix_trans; eassumption | assumption].
    + intros H; exists s; split; [apply is_suffix_refl | assumption].
Qed.

Lemma rmatch_consumes r : consumes (A := A) (rmatch r).
Proof.
  induction r as [c|p|r1 IH1 r2 IH2|r1 IH1 r2 IH2|r1 IH1]; intros s k x; simpl.
  - destruct s as [|y s]; [discriminate|].
    destruct (y =? c); [|discriminate].
    intros H; exists s; split; [apply is_suffix_cons, is_suffix_refl | assumption].
  - destruct s as [|y s]; [discriminate|].
    destruct (p y); [|discriminate].
    intros H; exists s; split; [apply is_suffix_cons, is_suffix_refl | assumption].
  - intros H; apply IH1 in H; destruct H as (s1 & Hs1 & H).
    apply IH2 in H; destruct H as (s2 & Hs2 & H).
    exists s2; split; [eapply is_suffix_trans; eassumption | assumption].
  - destruct (rmatch r1 s k) as [y|] eqn:E.
    + intros H; injection H as ->; apply IH1; assumption.
    + apply IH2.
  - apply star_loop_consumes; assumption.
Qed.

(** A greedy class iteration whose continuation refuses every string
    that still starts in the class cannot give anything back. *)
Lemma star_class_commit p (k : @cont A) :
  (forall c s', p c = true -> k (c :: s') = None) ->
  forall fuel s, (List.length s <= fuel)%nat ->
  star_loop (rmatch (Cls p)) fuel s k = k (dropWhile p s).
Proof.
  intros Hk fuel; induction fuel as [|fuel IH]; intros s Hlen.
  - destruct s; [reflexivity | simpl in Hlen; lia].
  - destruct s as [|x s]; [reflexivity|].
    simpl in *. destruct (p x) eqn:Hx.
    + replace (List.length s <? S (List.length s))%nat with true
        by (symmetry; apply Nat.ltb_lt; lia).
      rewrite IH by lia.
      destruct (k (dropWhile p s)); [reflexivity | apply Hk; assumption].
    + reflexivity.
Qed.

(** When the continuation accepts the remainder after the longest run,
    that is the match. *)
Lemma star_class_longest p (k : @cont A) x :
  forall fuel s, (List.length s <= fuel)%nat ->
  k (dropWhile p s) = Some x ->
  star_loop (rmatch (Cls p)) fuel s k = Some x.
Proof.
  intros fuel; induction fuel as [|fuel IH]; intros s Hlen Hk.
  - destruct s; [assumption | simpl in Hlen; lia].
  - destruct s as [|y s]; [assumption|].
    simpl in *. destruct (p y) eqn:Hy.
    + replace (List.length s <? S (List.length s))%nat with true
        by (symmetry; apply Nat.ltb_lt; lia).
      rewrite (IH s) by (lia || assumption). reflexivity.
    + assumption.
Qed.

Lemma plus_class_commit p (k : @cont A) s :
  (forall c s', p c = true -> k (c :: s') = None) ->
  rmatch (Plus (Cls p)) s k =
    match s with
    | y :: s' => if p y then k (dropWhile p s') else None
    | [] => None
    end.
Proof.
  intros Hk; destruct s as [|y s]; [reflexivity|].
  simpl. destruct (p y); [|reflexivity].
  apply star_class_commit; [assumption | lia].
Qed.
End MatcherFacts.

Lemma exec_consumes r s rest : exec_at_start r s = Some rest -> is_suffix rest s.
Proof.
  unfold exec_at_start; intros H.
  apply rmatch_consumes in H; destruct H as (s' & Hs & H).
  injection H as ->; assumption.
Qed.

Lemma replace_anchored_suffix r s : is_suffix (replace_anchored r s) s.
Proof.
  unfold replace_anchored; destruct (exec_at_start r s) eqn:E.
  - eapply exec_consumes; eassumption.
  - apply is_suffix_refl.
Qed.

Lemma star_ws_exec s :
  rmatch (Star (Cls isWhiteSpace)) s (fun rest => Some rest)
  = Some (dropWhile isWhiteSpace s).
Proof. simpl; apply star_class_longest; [lia | reflexivity]. Qed.

(** ** The prefix pattern, case by case *)

Section PrefixPattern.
Context {A : Type}.
Implicit Types k : @cont A.

Lemma rmatch_Seq r1 r2 s k :
  rmatch (Seq r1 r2) s k = rmatch r1 s (fun s' => rmatch r2 s' k).
Proof. reflexivity. Qed.

Lemma rmatch_Alt r1 r2 s k :
  rmatch (Alt r1 r2) s k =
    match rmatch r1 s k with Some x => Some x | None => rmatch r2 s k end.
Proof. reflexivity. Qed.

Lemma rmatch_Chr c x s k :
  rmatch (Chr c) (x :: s) k = if x =? c then k s else None.
Proof. reflexivity. Qed.

Lemma rmatch_Cls p x s k :
  rmatch (Cls p) (x :: s) k = if p x then k s else None.
Proof. reflexivity. Qed.

(** [\(\d+\)] *)
Lemma parenthesized_match s k :
  rmatch (Seq (Chr Ch.lparen) (Seq (Plus (Cls isDigit)) (Chr Ch.rparen))) s k =
    match s with
    | x :: y :: s' =>
        if (x =? Ch.lparen) && isDigit y then
          match dropWhile isDigit s' with
          | z :: rest => if z =? Ch.rparen then k rest else None
          | [] => None
          end
        else None
    | _ => None
    end.
Proof.
  destruct s as [|x s]; [reflexivity|].
  rewrite rmatch_Seq, rmatch_Chr.
  destruct (x =? Ch.lparen); [|destruct s; reflexivity].
  rewrite rmatch_Seq, plus_class_commit.
  - destruct s as [|y s]; [reflexivity|]. simpl andb.
    destruct (isDigit y); [|reflexivity].
    destruct (dropWhile isDigit s); reflexivity.
  - intros c s' Hc; rewrite rmatch_Chr.
    destruct (c =? Ch.rparen) eqn:E; [|reflexivity].
    apply Z.eqb_eq in E; subst c; discriminate.
Qed.

(** [\d+[.)]] *)
Lemma numbered_match s k :
  rmatch (Seq (Plus (Cls isDigit)) (Cls isDotOrParen)) s k =
    match s with
    | x :: s' =>
        if isDigit x then
          match dropWhile isDigit s' with
          | z :: rest => if isDotOrParen z then k rest else None
          | [] => None
          end
        else None
    | [] => None
    end.
Proof.
  rewrite rmatch_Seq, plus_class_commit.
  - destruct s as [|x s]; [reflexivity|].
    destruct (isDigit x); [|reflexivity].
    destruct (dropWhile isDigit s); reflexivity.
  - intros c s' Hc; rewrite rmatch_Cls.
    destruct (isDotOrParen c) eqn:E; [|reflexivity].
    unfold isDotOrParen, isDigit, Ch.dot, Ch.rparen in *; lia.
Qed.
End PrefixPattern.

Lemma exec_prefix s : exec_at_start prefix_re s = afterPrefix s.
Proof.
  unfold exec_at_start, prefix_re, bulletOrNumber.
  rewrite rmatch_Seq.
  destruct s as [|x s]; [reflexivity|].
  rewrite !rmatch_Alt, parenthesized_match, numbered_match, !rmatch_Chr.
  unfold afterPrefix.
  destruct (x =? Ch.bullet) eqn:E1.
  { rewrite star_ws_exec; reflexivity. }
  destruct (x =? Ch.hyphen) eqn:E2.
  { rewrite star_ws_exec; reflexivity. }
  destruct (x =? Ch.star) eqn:E3.
  { rewrite star_ws_exec; reflexivity. }
  simpl orb.
  destruct (x =? Ch.lparen) eqn:E4.
  - apply Z.eqb_eq in E4; subst x.
    replace (isDigit Ch.lparen) with false by reflexivity.
    destruct s as [|y s]; [reflexivity|]. simpl andb.
    destruct (isDigit y); [|reflexivity].
    destruct (dropWhile isDigit s) as [|z rest]; [reflexivity|].
    destruct (z =? Ch.rparen); [|reflexivity].
    rewrite star_ws_exec; reflexivity.
  - replace (match s with
             | [] => None
             | y :: s' => if false && isDigit y then
                 match dropWhile isDigit s' with
                 | [] => None
                 | z :: rest =>
                     if z =? Ch.rparen
                     then rmatch (Star (Cls isWhiteSpace)) rest (fun rest0 => Some rest0)
                     else None
                 end else None
             end) with (@None jsstring) by (destruct s; reflexivity).
    destruct (isDigit x); [|reflexivity].
    destruct (dropWhile isDigit s) as [|z rest]; [reflexivity|].
    destruct (isDotOrParen z); [|reflexivity].
    rewrite star_ws_exec; reflexivity.
Qed.

Lemma stripPrefix_afterPrefix s :
  stripPrefix s = trim (match afterPrefix s with Some rest => rest | None => s end).
Proof. unfold stripPrefix, replace_anchored; rewrite exec_prefix; reflexivity. Qed.

Lemma takeWhile_dropWhile p s : s = takeWhile p s ++ dropWhile p s.
Proof.
  induction s as [|x s IH]; simpl; auto.
  destruct (p x); simpl; [f_equal; assumption | reflexivity].
Qed.

Lemma takeWhile_all p s : forallb p (takeWhile p s) = true.
Proof.
  induction s as [|x s IH]; simpl; auto.
  destruct (p x) eqn:E; simpl; auto. rewrite E; assumption.
Qed.

Lemma dropWhile_run p ds c r :
  forallb p ds = true -> p c = false -> dropWhile p (ds ++ c :: r) = c :: r.
Proof.
  intros Hds Hc. rewrite dropWhile_app_all by assumption.
  simpl; rewrite Hc; reflexivity.
Qed.

Lemma digit_not_special x :
  isDigit x = true ->
  (x =? Ch.bullet) = false /\ (x =? Ch.hyphen) = false /\
  (x =? Ch.star) = false /\ (x =? Ch.lparen) = false /\
  (x =? Ch.rparen) = false /\ isDotOrParen x = false.
Proof.
  unfold isDigit, isDotOrParen, Ch.bullet, Ch.hyphen, Ch.star, Ch.lparen,
    Ch.rparen, Ch.dot; intros H; repeat split; lia.
Qed.

Lemma dotOrParen_not_digit c : isDotOrParen c = true -> isDigit c = false.
Proof. unfold isDigit, isDotOrParen, Ch.rparen, Ch.dot; lia. Qed.

(** The pattern removes a prefix of the specified shape, with the white
    space after it. *)
Lemma afterPrefix_leading p r :
  LeadingPrefix p -> afterPrefix (p ++ r) = Some (dropWhile isWhiteSpace r).
Proof.
  intros [ | | |ds Hne Hds|ds c Hne Hds Hc]; try reflexivity.
  - destruct ds as [|y ds]; [congruence|].
    simpl in Hds; apply andb_prop in Hds; destruct Hds as [Hy Hds].
    cbn [app afterPrefix].
    replace (Ch.lparen =? Ch.bullet) with false by reflexivity.
    replace (Ch.lparen =? Ch.hyphen) with false by reflexivity.
    replace (Ch.lparen =? Ch.star) with false by reflexivity.
    replace (Ch.lparen =? Ch.lparen) with true by reflexivity.
    simpl orb. cbv iota. rewrite Hy, <- app_assoc. simpl app.
    rewrite dropWhile_run by (assumption || reflexivity).
    reflexivity.
  - destruct ds as [|y ds]; [congruence|].
    simpl in Hds; apply andb_prop in Hds; destruct Hds as [Hy Hds].
    destruct (digit_not_special y Hy) as (E1 & E2 & E3 & E4 & _).
    cbn [app afterPrefix].
    rewrite E1, E2, E3, E4, Hy, <- app_assoc. simpl.
    rewrite dropWhile_run by (auto using dotOrParen_not_digit).
    rewrite Hc; reflexivity.
Qed.

(** Anything the pattern matches starts with a prefix of the specified
    shape. *)
Lemma afterPrefix_only_leading s rest :
  afterPrefix s = Some rest ->
  exists p r, LeadingPrefix p /\ s = p ++ r.
Proof.
  destruct s as [|x s]; [discriminate|].
  unfold afterPrefix.
  destruct (x =? Ch.bullet) eqn:E1.
  { apply Z.eqb_eq in E1; subst x; intros _.
    exists [Ch.bullet], s; split; [constructor | reflexivity]. }
  destruct (x =? Ch.hyphen) eqn:E2.
  { apply Z.eqb_eq in E2; subst x; intros _.
    exists [Ch.hyphen], s; split; [constructor | reflexivity]. }
  destruct (x =? Ch.star) eqn:E3.
  { apply Z.eqb_eq in E3; subst x; intros _.
    exists [Ch.star], s; split; [constructor | reflexivity]. }
  simpl orb. cbv iota.
  destruct (x =? Ch.lparen) eqn:E4.
  - apply Z.eqb_eq in E4; subst x.
    destruct s as [|y s]; [discriminate|].
    destruct (isDigit y) eqn:Hy; [|discriminate].
    destruct (dropWhile isDigit s) as [|z tl] eqn:Hd; [discriminate|].
    destruct (z =? Ch.rparen) eqn:Hz; [|discriminate].
    apply Z.eqb_eq in Hz; subst z; intros _.
    exists (Ch.lparen :: (y :: takeWhile isDigit s) ++ [Ch.rparen]), tl; split.
    + constructor; [discriminate|].
      simpl; rewrite Hy, takeWhile_all; reflexivity.
    + simpl. rewrite <- app_assoc. simpl.
      rewrite <- Hd, <- takeWhile_dropWhile; reflexivity.
  - destruct (isDigit x) eqn:Hx; [|discriminate].
    destruct (dropWhile isDigit s) as [|z tl] eqn:Hd; [discriminate|].
    destruct (isDotOrParen z) eqn:Hz; [|discriminate].
    intros _.
    exists ((x :: takeWhile isDigit s) ++ [z]), tl; split.
    + constructor; [discriminate| |assumption].
      simpl; rewrite Hx, takeWhile_all; reflexivity.
    + simpl. rewrite <- app_assoc. simpl.
      rewrite <- Hd, <- takeWhile_dropWhile; reflexivity.
Qed.

Lemma stripPrefix_leading p r : LeadingPrefix p -> stripPrefix (p ++ r) = trim r.
Proof.
  intros H; rewrite stripPrefix_afterPrefix, (afterPrefix_leading p r H).
  apply trim_dropWhile.
Qed.

Lemma stripPrefix_no_leading s :
  (forall p r, LeadingPrefix p -> s <> p ++ r) -> stripPrefix s = trim s.
Proof.
  intros H; rewrite stripPrefix_afterPrefix.
  destruct (afterPrefix s) as [rest|] eqn:E; [|reflexivity].
  apply afterPrefix_only_leading in E; destruct E as (p & r & Hp & ->).
  exfalso; eapply H; eauto.
Qed.

Lemma stripPrefix_In c s : In c (stripPrefix s) -> In c s.
Proof.
  unfold stripPrefix; intros H; apply trim_In in H.
  eapply is_suffix_In; [apply replace_anchored_suffix | eassumption].
Qed.

Lemma stripPrefix_trimmed s : trim (stripPrefix s) = stripPrefix s.
Proof. unfold stripPrefix; apply trim_idem. Qed.

(** ** Replacing and splitting *)

Lemma replace1_In a rep c s : In c (replace1 a rep s) -> In c rep \/ In c s.
Proof.
  induction s as [|x s IH]; simpl; auto.
  destruct (x =? a).
  - intros H; apply in_app_or in H; destruct H as [H|H]; auto.
    destruct (IH H); auto.
  - intros [H|H]; auto. destruct (IH H); auto.
Qed.

Lemma replace1_removes a rep s : ~ In a rep -> ~ In a (replace1 a rep s).
Proof.
  intros Hrep; induction s as [|x s IH]; simpl; auto.
  destruct (x =? a) eqn:E.
  - intros H; apply in_app_or in H; tauto.
  - intros [H|H]; [|tauto]. subst x; rewrite Z.eqb_refl in E; discriminate.
Qed.

Lemma replace2_cons2 a b rep x y s :
  replace2 a b rep (x :: y :: s) =
    if (x =? a) && (y =? b) then rep ++ replace2 a b rep s
    else x :: replace2 a b rep (y :: s).
Proof. reflexivity. Qed.

(** [replace2] recurses two units at a time; facts about it are proved
    for a string and its tail together. *)
Lemma replace2_In a b rep c s : In c (replace2 a b rep s) -> In c rep \/ In c s.
Proof.
  revert s.
  assert (H : forall s,
             (In c (replace2 a b rep s) -> In c rep \/ In c s) /\
             (forall x, In c (replace2 a b rep (x :: s)) -> In c rep \/ In c (x :: s))).
  { induction s as [|y s [IH1 IH2]]; split.
    - simpl; auto.
    - intros x; simpl; auto.
    - apply IH2.
    - intros x. rewrite replace2_cons2. destruct ((x =? a) && (y =? b)).
      + intros H; apply in_app_or in H; destruct H as [H|H]; auto.
        destruct (IH1 H); simpl; auto.
      + intros [H|H]; [simpl; auto|].
        destruct (IH2 y H) as [H'|H']; auto. right; right; assumption. }
  intros s; apply H.
Qed.


Lemma split_nonempty sep s : split sep s <> [].
Proof.
  destruct s as [|c s]; simpl; [discriminate|].
  destruct (sep c); [discriminate|].
  destruct (split sep s); discriminate.
Qed.

(** [split] never gives the empty list. *)
Ltac no_segments :=
  match goal with
  | H : split _ _ = [] |- _ => exfalso; exact (split_nonempty _ _ H)
  end.

(** A segment holds units of the text only, and no separator. *)
Lemma split_In sep s seg c :
  In seg (split sep s) -> In c seg -> In c s /\ sep c = false.
Proof.
  revert seg; induction s as [|x s IH]; intros seg; simpl.
  - intros [<-|[]] [].
  - destruct (sep x) eqn:E.
    + intros [<-|H] Hc; [destruct Hc|].
      destruct (IH _ H Hc); auto.
    + destruct (split sep s) as [|seg0 segs] eqn:Es.
      * no_segments.
      * intros [<-|H] Hc.
        -- destruct Hc as [<-|Hc]; [auto|].
           destruct (IH seg0 (or_introl eq_refl) Hc); auto.
        -- destruct (IH seg (or_intror H) Hc); auto.
Qed.

Lemma Interleaved_push sep x segs t :
  Interleaved sep segs t ->
  match segs with
  | seg :: segs' => Interleaved sep ((x :: seg) :: segs') (x :: t)
  | [] => False
  end.
Proof.
  intros H; destruct H as [seg|seg c segs t Hc H].
  - constructor.
  - change (x :: seg ++ c :: t) with ((x :: seg) ++ c :: t).
    constructor; assumption.
Qed.

Lemma split_Interleaved sep s : Interleaved sep (split sep s) s.
Proof.
  induction s as [|x s IH]; simpl.
  - constructor.
  - destruct (sep x) eqn:E.
    + change (x :: s) with ([] ++ x :: s). constructor; assumption.
    + apply (Interleaved_push sep x) in IH.
      destruct (split sep s); [contradiction | assumption].
Qed.

(** Every separator occurrence splits. *)
Lemma split_length sep s : List.length (split sep s) = S (count sep s).
Proof.
  unfold count; induction s as [|x s IH]; simpl; auto.
  destruct (sep x); simpl; [f_equal; assumption|].
  destruct (split sep s); simpl in *; [discriminate | assumption].
Qed.

Lemma join_cons c seg seg' segs :
  join c (seg :: seg' :: segs) = seg ++ c :: join c (seg' :: segs).
Proof. reflexivity. Qed.

(** Splitting at one code unit loses nothing: joining gives the text back. *)
Lemma join_split c sep s :
  (forall x, sep x = true -> x = c) -> join c (split sep s) = s.
Proof.
  intros Hsep; induction s as [|x s IH]; [reflexivity|].
  cbn [split]. destruct (sep x) eqn:E.
  - apply Hsep in E; subst x.
    destruct (split sep s) as [|seg segs] eqn:Es.
    + no_segments.
    + rewrite join_cons, IH; reflexivity.
  - destruct (split sep s) as [|seg segs] eqn:Es.
    + no_segments.
    + destruct segs as [|seg' segs].
      * simpl in *; subst; reflexivity.
      * rewrite join_cons in *. rewrite <- IH; reflexivity.
Qed.

(** ** Normalization *)

Lemma includes_In c s : includes c s = true <-> In c s.
Proof.
  unfold includes; rewrite existsb_exists; split.
  - intros (x & Hx & E); apply Z.eqb_eq in E; subst; assumption.
  - intros H; exists c; split; [assumption | apply Z.eqb_refl].
Qed.

Lemma includes_not_In c s : includes c s = false <-> ~ In c s.
Proof.
  rewrite <- includes_In; destruct (includes c s); split; congruence.
Qed.

(** After normalization the only line break left is [LF]. *)
Lemma normalizeBreaks_In c t :
  In c (normalizeBreaks t) -> c = Ch.LF \/ In c t.
Proof.
  unfold normalizeBreaks; intros H.
  repeat (apply replace1_In in H; destruct H as [[<-|[]]|H]; [left; reflexivity|]).
  apply replace2_In in H; destruct H as [[<-|[]]|H]; [left; reflexivity|].
  right; assumption.
Qed.

Lemma normalizeBreaks_canonical c t :
  In c (normalizeBreaks t) -> c <> Ch.CR /\ c <> Ch.LS /\ c <> Ch.PS.
Proof.
  unfold normalizeBreaks; intros H; repeat split; intros ->.
  - apply replace1_In in H; destruct H as [[H|[]]|H]; [discriminate|].
    apply replace1_In in H; destruct H as [[H|[]]|H]; [discriminate|].
    revert H; apply replace1_removes; intros [H|[]]; discriminate.
  - apply replace1_In in H; destruct H as [[H|[]]|H]; [discriminate|].
    revert H; apply replace1_removes; intros [H|[]]; discriminate.
  - revert H; apply replace1_removes; intros [H|[]]; discriminate.
Qed.

Lemma normalize_canonical c t :
  In c (normalize t) -> c <> Ch.CR /\ c <> Ch.LS /\ c <> Ch.PS.
Proof. apply normalizeBreaks_canonical. Qed.

(** ** The shape of the result *)

Lemma parseItems_blank s : trim s = [] -> parseItems s = [].
Proof.
  intros H; unfold parseItems. destruct (isEmpty s); [reflexivity|].
  rewrite H; reflexivity.
Qed.

Lemma parseItems_segments s :
  trim s <> [] ->
  parseItems s =
    toItems (split (chosenSeparator (normalize (trim s))) (normalize (trim s))).
Proof.
  intros H; unfold parseItems, chosenSeparator.
  destruct s as [|x s]; [contradiction H; reflexivity|].
  cbn [isEmpty]. destruct (trim (x :: s)) as [|y t]; [contradiction H; reflexivity|].
  cbn [isEmpty]. destruct (negb _ && _); reflexivity.
Qed.

(** Every item is [stripPrefix] of a trimmed, non-empty segment. *)
Lemma toItems_In x segs :
  In x (toItems segs) ->
  exists seg, In seg segs /\ trim seg <> [] /\ x = stripPrefix (trim seg).
Proof.
  unfold toItems; intros H.
  apply in_map_iff in H; destruct H as (y & <- & H).
  apply filter_In in H; destruct H as [H Hy].
  apply in_map_iff in H; destruct H as (seg & <- & H).
  exists seg; repeat split; auto.
  intros E; rewrite E in Hy; discriminate.
Qed.

Lemma parseItems_In x s :
  In x (parseItems s) ->
  exists seg,
    In seg (split (chosenSeparator (normalize (trim s))) (normalize (trim s))) /\
    trim seg <> [] /\ x = stripPrefix (trim seg).
Proof.
  destruct (trim s) as [|y t] eqn:E.
  - rewrite parseItems_blank by assumption; intros [].
  - rewrite parseItems_segments, E by (rewrite E; discriminate).
    apply toItems_In.
Qed.

Lemma chosenSeparator_no_LF t c :
  In c t -> chosenSeparator t c = false -> c <> Ch.LF.
Proof.
  unfold chosenSeparator; intros Hc Hsep ->.
  destruct (includes Ch.LF t) eqn:E.
  - simpl in Hsep; discriminate.
  - apply includes_not_In in E; contradiction.
Qed.

(** No item holds a unit that its separator class contains, nor a unit
    that the normalized text lacks. *)
Lemma parseItems_units s x c :
  In x (parseItems s) -> In c x ->
  In c (normalize (trim s)) /\ chosenSeparator (normalize (trim s)) c = false.
Proof.
  intros Hx Hc.
  apply parseItems_In in Hx; destruct Hx as (seg & Hseg & _ & ->).
  apply stripPrefix_In, trim_In in Hc.
  eapply split_In; eassumption.
Qed.

(** ** Order *)

Lemma Subseq_filter {A} (f : A -> bool) l : Subseq (filter f l) l.
Proof.
  induction l as [|x l IH]; simpl; [constructor|].
  destruct (f x); constructor; assumption.
Qed.

Lemma filter_map_swap {A B} (f : A -> B) (q : B -> bool) l :
  filter q (map f l) = map f (filter (fun x => q (f x)) l).
Proof.
  induction l as [|x l IH]; simpl; [reflexivity|].
  destruct (q (f x)); simpl; rewrite IH; reflexivity.
Qed.

Lemma toItems_kept segs :
  toItems segs =
    map (fun seg => stripPrefix (trim seg))
        (filter (fun seg => truthy (trim seg)) segs).
Proof. unfold toItems; rewrite filter_map_swap, map_map; reflexivity. Qed.

Lemma is_infix_refl t : is_infix t t.
Proof. exists [], []; rewrite app_nil_r; reflexivity. Qed.

Lemma is_infix_trans x y t : is_infix x y -> is_infix y t -> is_infix x t.
Proof.
  intros (a1 & b1 & ->) (a2 & b2 & ->).
  exists (a2 ++ a1), (b1 ++ b2). rewrite <- !app_assoc; reflexivity.
Qed.

Lemma is_suffix_infix x t : is_suffix x t -> is_infix x t.
Proof. intros [a ->]; exists a, []; rewrite app_nil_r; reflexivity. Qed.

Lemma dropWhile_suffix p s : is_suffix (dropWhile p s) s.
Proof.
  induction s as [|x s IH]; simpl; [apply is_suffix_refl|].
  destruct (p x); [apply is_suffix_cons; assumption | apply is_suffix_refl].
Qed.

Lemma trimEnd_prefix s : exists b, s = trimEnd s ++ b.
Proof.
  unfold trimEnd.
  destruct (dropWhile_suffix isWhiteSpace (rev s)) as [pre H].
  exists (rev pre).
  rewrite <- rev_app_distr, <- H, rev_involutive; reflexivity.
Qed.

Lemma trim_infix s : is_infix (trim s) s.
Proof.
  unfold trim, trimStart.
  destruct (dropWhile_suffix isWhiteSpace s) as [a Ha].
  destruct (trimEnd_prefix (dropWhile isWhiteSpace s)) as [b Hb].
  exists a, b. rewrite <- Hb; assumption.
Qed.

Lemma stripPrefix_infix s : is_infix (stripPrefix s) s.
Proof.
  unfold stripPrefix.
  eapply is_infix_trans; [apply trim_infix|].
  apply is_suffix_infix, replace_anchored_suffix.
Qed.

Lemma Interleaved_infix sep segs t seg :
  Interleaved sep segs t -> In seg segs -> is_infix seg t.
Proof.
  induction 1 as [seg0|seg0 c segs t Hc H IH]; intros Hin.
  - destruct Hin as [<-|[]]; apply is_infix_refl.
  - destruct Hin as [<-|Hin].
    + exists [], (c :: t); reflexivity.
    + destruct (IH Hin) as (a & b & ->).
      exists (seg0 ++ c :: a), b. rewrite <- app_assoc; reflexivity.
Qed.

(** ** Order in the selection *)

Lemma InOrder_skip_app p items s : InOrder items s -> InOrder items (p ++ s).
Proof.
  destruct items as [|x items]; [trivial|].
  intros (pre & rest & -> & H). exists (p ++ pre), rest.
  rewrite <- app_assoc; auto.
Qed.

Lemma InOrder_app_r items : forall s q, InOrder items s -> InOrder items (s ++ q).
Proof.
  induction items as [|x items IH]; [trivial|].
  intros s q (pre & rest & -> & H). exists pre, (rest ++ q).
  rewrite <- !app_assoc; auto.
Qed.

Lemma InOrder_infix items x s : is_infix x s -> InOrder items x -> InOrder items s.
Proof.
  intros (a & b & ->) H. apply InOrder_skip_app, InOrder_app_r; assumption.
Qed.

Lemma Interleaved_InOrder sep segs t : Interleaved sep segs t -> InOrder segs t.
Proof.
  induction 1 as [seg|seg c segs t Hc H IH].
  - exists [], []; rewrite app_nil_r; split; [reflexivity | exact I].
  - exists [], (c :: t); split; [reflexivity|].
    apply (InOrder_skip_app [c]); assumption.
Qed.

Lemma InOrder_Subseq kept segs :
  Subseq kept segs -> forall s, InOrder segs s -> InOrder kept s.
Proof.
  induction 1 as [|x l1 l2 H IH|x l1 l2 H IH]; intros s; [trivial| |].
  - intros (pre & rest & -> & Hr).
    rewrite app_assoc; apply InOrder_skip_app; auto.
  - intros (pre & rest & -> & Hr). exists pre, rest; auto.
Qed.

Lemma InOrder_map_infix (g : jsstring -> jsstring) :
  (forall x, is_infix (g x) x) ->
  forall items s, InOrder items s -> InOrder (map g items) s.
Proof.
  intros Hg; induction items as [|x items IH]; [trivial|].
  intros s (pre & rest & -> & H).
  destruct (Hg x) as (a & b & E).
  exists (pre ++ a), (b ++ rest); split.
  - rewrite E at 1. rewrite <- !app_assoc; reflexivity.
  - apply InOrder_skip_app, IH; assumption.
Qed.

(** A pass that rewrites some places of a text into [LF] and leaves the
    other units where they are: whatever is cut off its result was cut off
    the text, and a start of the result without [LF] is a start of the
    text. *)
Section Pass.
Variable f : jsstring -> jsstring.
Hypothesis f_cut :
  forall u v t, f t = u ++ v -> exists t0 t1, t = t0 ++ t1 /\ f t1 = v.
Hypothesis f_prefix :
  forall x v t, ~ In Ch.LF x -> f t = x ++ v -> exists t1, t = x ++ t1 /\ f t1 = v.

Lemma InOrder_before_pass items :
  (forall x, In x items -> ~ In Ch.LF x) ->
  forall t, InOrder items (f t) -> InOrder items t.
Proof.
  induction items as [|x items IH]; [trivial|].
  intros Hfree t (pre & rest & E & H).
  destruct (f_cut _ _ _ E) as (t0 & t1 & -> & E1).
  destruct (f_prefix x rest t1 (Hfree x (or_introl eq_refl)) E1) as (t2 & -> & E2).
  exists t0, t2; split; [reflexivity|].
  apply IH; [intros y Hy; apply Hfree; right; assumption|].
  rewrite E2; assumption.
Qed.
End Pass.

Lemma replace1_cut a r u : forall v t,
  replace1 a [r] t = u ++ v -> exists t0 t1, t = t0 ++ t1 /\ replace1 a [r] t1 = v.
Proof.
  induction u as [|c u IH]; intros v t E.
  - exists [], t; auto.
  - destruct t as [|c0 t]; [discriminate|].
    assert (E' : replace1 a [r] t = u ++ v)
      by (simpl in E; destruct (c0 =? a); injection E as _ E; assumption).
    destruct (IH _ _ E') as (t0 & t1 & -> & E1).
    exists (c0 :: t0), t1; auto.
Qed.

Lemma replace1_prefix a r x : forall v t,
  ~ In r x -> replace1 a [r] t = x ++ v ->
  exists t1, t = x ++ t1 /\ replace1 a [r] t1 = v.
Proof.
  induction x as [|x0 x IH]; intros v t Hx E.
  - exists t; auto.
  - destruct t as [|c0 t]; [discriminate|].
    simpl in E. destruct (c0 =? a).
    + injection E as E0 _. exfalso; apply Hx; left; symmetry; assumption.
    + injection E as -> E.
      destruct (IH v t) as (t1 & -> & E1);
        [intros H; apply Hx; right; assumption | assumption|].
      exists t1; auto.
Qed.

Lemma replace2_cut a b r u : forall v t,
  replace2 a b [r] t = u ++ v -> exists t0 t1, t = t0 ++ t1 /\ replace2 a b [r] t1 = v.
Proof.
  induction u as [|c u IH]; intros v t E.
  - exists [], t; auto.
  - destruct t as [|c0 [|c1 t]]; [discriminate| |].
    + injection E as _ E. destruct u; [|discriminate].
      exists [c0], []; split; [reflexivity | simpl in E; subst; reflexivity].
    + rewrite replace2_cons2 in E. destruct ((c0 =? a) && (c1 =? b)).
      * injection E as _ E.
        destruct (IH _ _ E) as (t0 & t1 & -> & E1).
        exists (c0 :: c1 :: t0), t1; auto.
      * assert (E' : replace2 a b [r] (c1 :: t) = u ++ v)
          by (injection E as _ E; exact E).
        destruct (IH _ _ E') as (t0 & t1 & E0 & E1).
        exists (c0 :: t0), t1; rewrite E0; auto.
Qed.

Lemma replace2_prefix a b r x : forall v t,
  ~ In r x -> replace2 a b [r] t = x ++ v ->
  exists t1, t = x ++ t1 /\ replace2 a b [r] t1 = v.
Proof.
  induction x as [|x0 x IH]; intros v t Hx E.
  - exists t; auto.
  - assert (Hx' : ~ In r x) by (intros H; apply Hx; right; assumption).
    destruct t as [|c0 [|c1 t]]; [discriminate| |].
    + injection E as -> E. destruct x; [|discriminate].
      exists []; split; [reflexivity | simpl in E; subst; reflexivity].
    + rewrite replace2_cons2 in E. destruct ((c0 =? a) && (c1 =? b)).
      * injection E as E0 _. exfalso; apply Hx; left; symmetry; assumption.
      * assert (E' : replace2 a b [r] (c1 :: t) = x ++ v)
          by (injection E as _ E; exact E).
        injection E as -> _.
        destruct (IH _ _ Hx' E') as (t1 & E0 & E1).
        exists t1; rewrite E0; auto.
Qed.

(** Pieces without a line break that follow each other in the normalized
    text follow each other in the text itself. *)
Lemma InOrder_before_normalize items t :
  (forall x, In x items -> ~ In Ch.LF x) ->
  InOrder items (normalize t) -> InOrder items t.
Proof.
  intros Hfree H. unfold normalize, normalizeBreaks, normalizeEscapes in H.
  repeat
    (first
       [ apply (InOrder_before_pass _ (replace1_cut _ Ch.LF)
                  (fun x v t => replace1_prefix _ Ch.LF x v t) items Hfree) in H
       | apply (InOrder_before_pass _ (replace2_cut _ _ Ch.LF)
                  (fun x v t => replace2_prefix _ _ Ch.LF x v t) items Hfree) in H ]).
  exact H.
Qed.

(** ** Trimming around a separator *)

Lemma dropWhile_app_word u w :
  hasWord u = true ->
  dropWhile isWhiteSpace (u ++ w) = dropWhile isWhiteSpace u ++ w.
Proof.
  unfold hasWord; induction u as [|x u IH]; simpl; [discriminate|].
  destruct (isWhiteSpace x); simpl; auto.
Qed.

Lemma hasWord_rev s : hasWord (rev s) = hasWord s.
Proof.
  unfold hasWord. destruct (existsb _ s) eqn:E.
  - apply existsb_exists in E; destruct E as (x & Hx & E).
    apply existsb_exists; exists x; split; [apply in_rev; rewrite rev_involutive|]; assumption.
  - destruct (existsb _ (rev s)) eqn:E'; [|reflexivity].
    apply existsb_exists in E'; destruct E' as (x & Hx & E').
    apply in_rev in Hx.
    assert (existsb (fun c => negb (isWhiteSpace c)) s = true)
      by (apply existsb_exists; eauto).
    congruence.
Qed.

Lemma trimEnd_app_word a v :
  hasWord v = true -> trimEnd (a ++ v) = a ++ trimEnd v.
Proof.
  intros H; unfold trimEnd.
  rewrite rev_app_distr, dropWhile_app_word by (rewrite hasWord_rev; assumption).
  rewrite rev_app_distr, rev_involutive; reflexivity.
Qed.


Lemma hasWord_nonempty s : hasWord s = true -> dropWhile isWhiteSpace s <> [].
Proof.
  unfold hasWord; induction s as [|x s IH]; simpl; [discriminate|].
  destruct (isWhiteSpace x); simpl; [assumption | discriminate].
Qed.

(** ** Escape sequences *)

Lemma replace2_cons_other a b rep x s :
  x <> a -> replace2 a b rep (x :: s) = x :: replace2 a b rep s.
Proof.
  intros H; destruct s as [|y s]; [reflexivity|].
  rewrite replace2_cons2.
  destruct (x =? a) eqn:E; [apply Z.eqb_eq in E; contradiction | reflexivity].
Qed.



(** The result depends on the selection only through the normalized,
    trimmed text. *)
Lemma parseItems_normalized s1 s2 :
  trim s1 <> [] -> trim s2 <> [] ->
  normalize (trim s1) = normalize (trim s2) ->
  parseItems s1 = parseItems s2.
Proof.
  intros H1 H2 E.
  rewrite (parseItems_segments s1 H1), (parseItems_segments s2 H2), E; reflexivity.
Qed.

(** * Properties of the specification *)

(** C1, as stated, fails when the line break is at the edge of the
    selection: the normalized form of the whole input ["a,b" + LF] holds a
    line break, yet the text is split at its comma, because the input is
    trimmed before it is normalized. *)
Lemma separator_decision_untrimmed_fails :
  let s := str "a,b" ++ [Ch.LF] in
  includes Ch.LF (normalize s) = true /\
  toItems (split isLF (normalize s)) = [str "a,b"] /\
  parseItems s = [str "a"; str "b"].
Proof. vm_compute; repeat split; reflexivity. Qed.

(** C1 (amended): the separator decision is taken on the normalized form
    of the trimmed input [t].  When [t] holds no line break but a
    backslash or a comma, the items come from splitting [t] at every
    backslash and comma (one more segment than there are such units, and
    none is left in any item); when [t] holds a line break, the items come
    from splitting [t] at its line breaks only, so that joining the
    segments with [LF] gives [t] back, commas and backslashes included. *)
Theorem separator_decision :
  (forall s,
     let t := normalize (trim s) in
     (includes Ch.LF t = false ->
      includes Ch.backslash t || includes Ch.comma t = true ->
      parseItems s = toItems (split isDelimiter t) /\
      List.length (split isDelimiter t) = S (count isDelimiter t) /\
      (forall x c, In x (parseItems s) -> In c x ->
                   c <> Ch.backslash /\ c <> Ch.comma)) /\
     (includes Ch.LF t = true ->
      parseItems s = toItems (split isLF t) /\
      join Ch.LF (split isLF t) = t /\
      List.length (split isLF t) = S (count isLF t))) /\
  parseItems (str "a, b" ++ [Ch.LF] ++ str "c, d") = [str "a, b"; str "c, d"] /\
  parseItems (str "apple, banana, cherry")
  = [str "apple"; str "banana"; str "cherry"].
Proof.
  split; [|split; reflexivity].
  intros s t.
  assert (Hne : forall c, includes c t = true -> trim s <> []).
  { intros c Hc E. subst t. rewrite E in Hc. discriminate. }
  split.
  - intros HLF Hdel.
    assert (Hsep : chosenSeparator t = isDelimiter).
    { unfold chosenSeparator; rewrite HLF, Hdel; reflexivity. }
    assert (Hs : trim s <> []).
    { apply orb_prop in Hdel; destruct Hdel as [H|H]; eapply Hne; eassumption. }
    assert (Hp : parseItems s = toItems (split isDelimiter t)).
    { rewrite parseItems_segments by assumption. fold t. rewrite Hsep; reflexivity. }
    split; [assumption|]. split; [apply split_length|].
    intros x c Hx Hc.
    destruct (parseItems_units s x c Hx Hc) as [_ H].
    fold t in H; rewrite Hsep in H.
    unfold isDelimiter in H; apply orb_false_elim in H; destruct H as [H1 H2].
    apply Z.eqb_neq in H1, H2; auto.
  - intros HLF.
    assert (Hsep : chosenSeparator t = isLF).
    { unfold chosenSeparator; rewrite HLF; reflexivity. }
    split; [|split; [|apply split_length]].
    + rewrite parseItems_segments by (eapply Hne; eassumption).
      fold t; rewrite Hsep; reflexivity.
    + apply join_split. intros x Hx; apply Z.eqb_eq; assumption.
Qed.

Lemma separator_decision_witness :
  (includes Ch.LF (normalize (trim (str "x,y\z"))) = false /\
   parseItems (str "x,y\z")
   = toItems (split isDelimiter (normalize (trim (str "x,y\z"))))) /\
  (includes Ch.LF (normalize (trim (str "x,y" ++ [Ch.CR] ++ str "z"))) = true /\
   parseItems (str "x,y" ++ [Ch.CR] ++ str "z")
   = toItems (split isLF (normalize (trim (str "x,y" ++ [Ch.CR] ++ str "z"))))).
Proof.
  split; (split; [reflexivity|]).
  - apply (proj1 (proj1 separator_decision (str "x,y\z"))); reflexivity.
  - apply (proj2 (proj1 separator_decision (str "x,y" ++ [Ch.CR] ++ str "z")));
      reflexivity.
Defined.

(** C2 fails on the code: a segment that is nothing but a prefix passes
    [filter(Boolean)] and is emptied by [stripPrefix] afterwards, so the
    result holds an empty string. *)
Theorem prefix_only_segment_gives_empty_item :
  parseItems (str "-") = [[]] /\
  parseItems (str "1.") = [[]] /\
  parseItems (str "apple" ++ [Ch.LF] ++ str "-" ++ [Ch.LF] ++ str "pear")
  = [str "apple"; []; str "pear"].
Proof. repeat split; reflexivity. Qed.

(** C3: parsing always returns a list (as a step of the flow it yields a
    value, never a thrown error, in every world), and a selection of white
    space only, the empty one included, gives the empty list. *)
Theorem parseItems_total_and_blank (s : jsstring) :
  (forall w, exists items, parseItemsM s w = (w, inr items)) /\
  (forallb isWhiteSpace s = true -> parseItems s = []).
Proof.
  split.
  - intros w; exists (parseItems s); reflexivity.
  - intros H; apply parseItems_blank, trim_blank; assumption.
Qed.

Lemma parseItems_total_and_blank_witness :
  forallb isWhiteSpace ([Ch.SP; Ch.TAB; Ch.CR; Ch.LF; Ch.NBSP; Ch.LS]) = true /\
  parseItems [Ch.SP; Ch.TAB; Ch.CR; Ch.LF; Ch.NBSP; Ch.LS] = [].
Proof.
  split; [reflexivity|].
  apply (proj2 (parseItems_total_and_blank _)); reflexivity.
Defined.



(** C5: [stripPrefix] removes one prefix of the specified shape from the
    start of a segment, with the white space after it, and nothing more:
    what follows the prefix is only trimmed, even when it starts with a
    prefix again, and a segment that does not start with such a prefix is
    only trimmed. *)
Theorem stripPrefix_one_leading_prefix :
  (forall p r, LeadingPrefix p -> stripPrefix (p ++ r) = trim r) /\
  (forall s, (forall p r, LeadingPrefix p -> s <> p ++ r) ->
             stripPrefix s = trim s) /\
  stripPrefix (str "- - twice") = str "- twice" /\
  stripPrefix (str "1. (2) twice") = str "(2) twice" /\
  stripPrefix (str "inner - dash 1. and (2)") = str "inner - dash 1. and (2)" /\
  parseItems (str "1) First" ++ [Ch.LF] ++ str "2) Second" ++ [Ch.LF] ++ str "- Third")
  = [str "First"; str "Second"; str "Third"].
Proof.
  split; [exact stripPrefix_leading|].
  split; [exact stripPrefix_no_leading|].
  repeat split; reflexivity.
Qed.

Lemma stripPrefix_one_leading_prefix_witness :
  (LeadingPrefix (str "(12)") /\
   stripPrefix (str "(12)" ++ str "  * item ") = trim (str "  * item ")) /\
  stripPrefix (str "item 1.") = trim (str "item 1.").
Proof.
  assert (H : LeadingPrefix (str "(12)")).
  { apply (LP_parenthesized (str "12")); [discriminate | reflexivity]. }
  split; [split; [exact H|]|].
  - apply (proj1 stripPrefix_one_leading_prefix); exact H.
  - apply (proj1 (proj2 stripPrefix_one_leading_prefix)).
    intros p r Hp E.
    destruct Hp as [ | | |ds Hne Hds|ds c Hne Hds Hc]; try discriminate E.
    destruct ds as [|y ds]; [contradiction Hne; reflexivity|].
    injection E as E _; subst y; discriminate Hds.
Defined.

(** C6: the items are, in order, the images under trimming and prefix
    stripping of some of the segments.  These segments are pieces of the
    selection itself: they follow each other in the input, without
    overlap, in the order of the list, and so do the items, each inside
    its segment.  The segments are also the ones that, with one separator
    between neighbours, spell the normalized text. *)
Theorem parseItems_preserves_order :
  (forall s,
     let t := normalize (trim s) in
     exists segs kept,
       Interleaved (chosenSeparator t) segs t /\
       Subseq kept segs /\
       parseItems s = map (fun seg => stripPrefix (trim seg)) kept /\
       InOrder kept s /\
       InOrder (parseItems s) s) /\
  parseItems (str "apple" ++ [Ch.LF] ++ str "banana" ++ [Ch.LF] ++ str "cherry")
  = [str "apple"; str "banana"; str "cherry"] /\
  parseItems (str "apple\banana\cherry")
  = [str "apple"; str "banana"; str "cherry"].
Proof.
  split; [|split; reflexivity].
  intros s t.
  exists (split (chosenSeparator t) t).
  destruct (trim s) as [|y a] eqn:E.
  - exists []. split; [apply split_Interleaved|]. split.
    + subst t; vm_compute. repeat constructor.
    + rewrite parseItems_blank by assumption. repeat split.
  - set (kept := filter (fun seg => truthy (trim seg)) (split (chosenSeparator t) t)).
    assert (Hitems : parseItems s = map (fun seg => stripPrefix (trim seg)) kept).
    { rewrite parseItems_segments by (rewrite E; discriminate).
      rewrite E; apply toItems_kept. }
    assert (Hfree : forall x, In x kept -> ~ In Ch.LF x).
    { intros x Hx Hc. apply filter_In in Hx; destruct Hx as [Hx _].
      destruct (split_In _ _ _ _ Hx Hc) as [Ht Hsep].
      exact (chosenSeparator_no_LF _ _ Ht Hsep eq_refl). }
    assert (Hkept : InOrder kept s).
    { apply (InOrder_infix kept (trim s) s (trim_infix s)).
      rewrite E. apply InOrder_before_normalize; [assumption|].
      apply (InOrder_Subseq kept (split (chosenSeparator t) t));
        [apply Subseq_filter | apply (Interleaved_InOrder (chosenSeparator t))].
      apply split_Interleaved. }
    exists kept. repeat split; try assumption;
      [apply split_Interleaved | apply Subseq_filter|].
    rewrite Hitems. apply InOrder_map_infix; [|assumption].
    intros x. eapply is_infix_trans; [apply stripPrefix_infix | apply trim_infix].
Qed.

(** C7: every item is its own trim. *)
Theorem parseItems_items_trimmed (s x : jsstring) :
  In x (parseItems s) -> trim x = x.
Proof.
  intros H; apply parseItems_In in H; destruct H as (seg & _ & _ & ->).
  apply stripPrefix_trimmed.
Qed.

Lemma parseItems_items_trimmed_witness :
  In (str "b c") (parseItems (str " a ,  2) b c  ")) /\ trim (str "b c") = str "b c".
Proof.
  assert (H : In (str "b c") (parseItems (str " a ,  2) b c  ")))
    by (right; left; reflexivity).
  split; [exact H|].
  exact (parseItems_items_trimmed _ _ H).
Defined.

Lemma insertRest_run rest w :
  insertRest rest w
  = ({| insertBtn := insertBtn w; bulletsBtn := bulletsBtn w;
        titleInput := titleInput w; statusEl := statusEl w;
        doc := doc w ++ map (fun item => ListInsertParagraph item locEnd) rest;
        console := console w |}, inr tt).
Proof.
  revert w; induction rest as [|item rest IH]; intros w.
  - simpl; rewrite app_nil_r; destruct w; reflexivity.
  - cbn [insertRest]; unfold bind, issue, modify.
    rewrite IH; cbn [doc insertBtn bulletsBtn titleInput statusEl console map].
    rewrite <- app_assoc; reflexivity.
Qed.

(** Once the selection has been read, what reaches the document is
    decided by the item list alone: nothing for the empty list. *)
Lemma bulletsFromSelection_requests h w :
  syncLoad h = None ->
  doc (fst (bulletsFromSelection h w))
  = doc w ++ requestsFor (parseItems (selectionText h)).
Proof.
  intros Hload.
  unfold bulletsFromSelection, try_catch_finally, bulletsBatch, parseItemsM, bind.
  rewrite Hload. cbn [sync ret setBusy setStatus modify].
  destruct (parseItems (selectionText h)) as [|first rest].
  - cbn; rewrite app_nil_r; reflexivity.
  - unfold bind, issue, modify. rewrite insertRest_run.
    destruct (syncWrite h); cbn; rewrite <- !app_assoc; reflexivity.
Qed.

(** With the selection read, an empty item list leaves the document
    untouched, and the status last shown is the success acknowledgment. *)
Lemma bulletsFromSelection_no_items h w :
  syncLoad h = None -> parseItems (selectionText h) = [] ->
  doc (fst (bulletsFromSelection h w)) = doc w /\
  statusEl (fst (bulletsFromSelection h w))
  = option_map (fun _ => {| textContent := "Bullets created.";
                            statusClass := Some success |}) (statusEl w).
Proof.
  intros Hload Hitems.
  unfold bulletsFromSelection, try_catch_finally, bulletsBatch, parseItemsM, bind.
  rewrite Hload, Hitems. simpl.
  destruct (statusEl w); split; reflexivity.
Qed.

(** C8 fails on the code: with an empty selection nothing is issued to the
    document and the batch sets the error status, but the flow goes on
    after the batch and overwrites it with the success status. *)
Theorem empty_selection_ends_in_success :
  statusEl (fst (bulletsBatch (selecting []) readyWorld))
  = Some {| textContent := noItemsMessage; statusClass := Some error |} /\
  bulletsFromSelection (selecting []) readyWorld
  = ({| insertBtn := Some false; bulletsBtn := Some false;
        titleInput := Some false;
        statusEl := Some {| textContent := "Bullets created.";
                            statusClass := Some success |};
        doc := []; console := [] |}, inr tt).
Proof. split; reflexivity. Qed.

(** C9: the parse step gives equal lists on equal selections, whatever
    the worlds it runs in, and leaves each world as it found it. *)
Theorem parseItems_deterministic (s1 s2 : jsstring) (w1 w2 : World) :
  s1 = s2 ->
  snd (parseItemsM s1 w1) = snd (parseItemsM s2 w2) /\
  fst (parseItemsM s1 w1) = w1 /\ fst (parseItemsM s2 w2) = w2.
Proof. intros ->; repeat split. Qed.

Lemma parseItems_deterministic_witness :
  snd (parseItemsM (str "a,b") readyWorld)
  = snd (parseItemsM (str "a,b")
           (fst (bulletsFromSelection (selecting (str "x")) readyWorld))).
Proof.
  exact (proj1 (parseItems_deterministic (str "a,b") (str "a,b") readyWorld
                  (fst (bulletsFromSelection (selecting (str "x")) readyWorld))
                  eq_refl)).
Defined.

(** C10: no item holds a linefeed, a carriage return, a line separator or
    a paragraph separator. *)
Theorem parseItems_items_single_line (s x : jsstring) (c : Z) :
  In x (parseItems s) -> In c x -> isLineBreak c = false.
Proof.
  intros Hx Hc.
  destruct (parseItems_units s x c Hx Hc) as [Ht Hsep].
  pose proof (chosenSeparator_no_LF _ _ Ht Hsep) as H0.
  destruct (normalize_canonical _ _ Ht) as (H1 & H2 & H3).
  unfold isLineBreak.
  apply Z.eqb_neq in H0, H1, H2, H3.
  rewrite H0, H1, H2, H3; reflexivity.
Qed.

Lemma parseItems_items_single_line_witness :
  isLineBreak 98 = false.
Proof.
  apply (parseItems_items_single_line
           (str "a" ++ [Ch.CR; Ch.LF] ++ str "b" ++ [Ch.PS]) (str "b") 98).
  - right; left; reflexivity.
  - left; reflexivity.
Defined.

(** * Further properties of the parser *)

(** ** White space around the selection *)

Lemma forallb_rev_ws (p : Z -> bool) s : forallb p (rev s) = forallb p s.
Proof.
  induction s as [|x s IH]; [reflexivity|].
  simpl; rewrite forallb_app, IH; simpl.
  rewrite andb_true_r; apply andb_comm.
Qed.

Lemma hasWord_false_blank s : hasWord s = false -> forallb isWhiteSpace s = true.
Proof.
  unfold hasWord; induction s as [|x s IH]; [reflexivity|].
  simpl; destruct (isWhiteSpace x); simpl; [assumption | discriminate].
Qed.

Lemma trim_blank_left w s : forallb isWhiteSpace w = true -> trim (w ++ s) = trim s.
Proof.
  intros H; unfold trim, trimStart; rewrite dropWhile_app_all by assumption.
  reflexivity.
Qed.

Lemma trimEnd_blank_right a w :
  forallb isWhiteSpace w = true -> trimEnd (a ++ w) = trimEnd a.
Proof.
  intros H; unfold trimEnd.
  rewrite rev_app_distr, dropWhile_app_all by (rewrite forallb_rev_ws; assumption).
  reflexivity.
Qed.

Lemma trim_blank_right s w : forallb isWhiteSpace w = true -> trim (s ++ w) = trim s.
Proof.
  intros H; destruct (hasWord s) eqn:E.
  - unfold trim, trimStart; rewrite dropWhile_app_word by assumption.
    apply trimEnd_blank_right; assumption.
  - apply hasWord_false_blank in E.
    rewrite !trim_blank; [reflexivity | assumption |].
    rewrite forallb_app, E, H; reflexivity.
Qed.

(** The result depends on the selection through its trim only. *)
Lemma parseItems_trim_eq s1 s2 : trim s1 = trim s2 -> parseItems s1 = parseItems s2.
Proof.
  intros E; destruct (trim s1) as [|x a] eqn:E1.
  - rewrite !parseItems_blank; auto.
  - apply parseItems_normalized.
    + rewrite E1; discriminate.
    + rewrite <- E; discriminate.
    + rewrite E1, <- E; reflexivity.
Qed.

(** X1: white space before and after the selection, line breaks
    included, does not change the items. *)
Theorem parseItems_ignores_outer_blank (w1 s w2 : jsstring) :
  forallb isWhiteSpace w1 = true -> forallb isWhiteSpace w2 = true ->
  parseItems (w1 ++ s ++ w2) = parseItems s.
Proof.
  intros H1 H2; apply parseItems_trim_eq.
  rewrite trim_blank_left, trim_blank_right by assumption; reflexivity.
Qed.

Lemma parseItems_ignores_outer_blank_witness :
  parseItems ([Ch.LF; Ch.SP] ++ str "a,b" ++ [Ch.CR; Ch.LF; Ch.TAB])
  = parseItems (str "a,b").
Proof.
  apply parseItems_ignores_outer_blank; reflexivity.
Defined.

(** ** A selection without separators *)

Lemma replace2_absent a b rep s : ~ In a s -> replace2 a b rep s = s.
Proof.
  induction s as [|x s IH]; [reflexivity|].
  intros H. rewrite replace2_cons_other by (intros ->; apply H; left; reflexivity).
  rewrite IH; [reflexivity | intros H'; apply H; right; assumption].
Qed.

Lemma replace1_absent a rep s : ~ In a s -> replace1 a rep s = s.
Proof.
  induction s as [|x s IH]; [reflexivity|].
  intros H; simpl.
  destruct (x =? a) eqn:E.
  - apply Z.eqb_eq in E; subst x; exfalso; apply H; left; reflexivity.
  - rewrite IH; [reflexivity | intros H'; apply H; right; assumption].
Qed.

(** Text without a backslash and without a line break other than [LF] is
    already normalized. *)
Lemma normalize_plain t :
  ~ In Ch.backslash t -> ~ In Ch.CR t -> ~ In Ch.LS t -> ~ In Ch.PS t ->
  normalize t = t.
Proof.
  intros Hb Hc Hl Hp; unfold normalize, normalizeEscapes, normalizeBreaks.
  rewrite (replace2_absent Ch.backslash Ch.r) by assumption.
  rewrite (replace2_absent Ch.backslash Ch.n) by assumption.
  rewrite (replace2_absent Ch.CR) by assumption.
  rewrite (replace1_absent Ch.CR) by assumption.
  rewrite (replace1_absent Ch.LS) by assumption.
  rewrite (replace1_absent Ch.PS) by assumption.
  reflexivity.
Qed.

Lemma split_plain sep s : (forall c, In c s -> sep c = false) -> split sep s = [s].
Proof.
  induction s as [|x s IH]; [reflexivity|].
  intros H; simpl. rewrite (H x) by (left; reflexivity).
  rewrite IH; [reflexivity | intros c Hc; apply H; right; assumption].
Qed.

Lemma isLineBreak_false c :
  isLineBreak c = false ->
  c <> Ch.LF /\ c <> Ch.CR /\ c <> Ch.LS /\ c <> Ch.PS.
Proof. unfold isLineBreak, Ch.LF, Ch.CR, Ch.LS, Ch.PS; lia. Qed.

Lemma isDelimiter_false c :
  isDelimiter c = false -> c <> Ch.backslash /\ c <> Ch.comma.
Proof. unfold isDelimiter, Ch.backslash, Ch.comma; lia. Qed.

Lemma chosenSeparator_cases t c :
  chosenSeparator t c = true -> isLF c = true \/ isDelimiter c = true.
Proof. unfold chosenSeparator; destruct (_ && _); auto. Qed.

(** X2: a selection with no line break, backslash or comma gives exactly
    one item, its trim without the leading prefix. *)
Theorem parseItems_single_item (s : jsstring) :
  trim s <> [] ->
  (forall c, In c s -> isLineBreak c = false /\ isDelimiter c = false) ->
  parseItems s = [stripPrefix (trim s)].
Proof.
  intros Hne Hs.
  assert (Ht : forall c, In c (trim s) ->
                         isLineBreak c = false /\ isDelimiter c = false).
  { intros c Hc; apply Hs; eapply trim_In; eassumption. }
  assert (Hn : normalize (trim s) = trim s).
  { apply normalize_plain; intros Hc; destruct (Ht _ Hc) as [Hb Hd];
      apply isLineBreak_false in Hb; apply isDelimiter_false in Hd; tauto. }
  rewrite parseItems_segments, Hn by assumption.
  rewrite split_plain.
  - unfold toItems; simpl. rewrite trim_idem.
    destruct (trim s); [contradiction Hne; reflexivity | reflexivity].
  - intros c Hc. destruct (chosenSeparator (trim s) c) eqn:E; [|reflexivity].
    destruct (Ht _ Hc) as [Hb Hd].
    apply chosenSeparator_cases in E; destruct E as [E|E]; [|congruence].
    apply isLineBreak_false in Hb. unfold isLF in E; apply Z.eqb_eq in E; tauto.
Qed.

Lemma parseItems_single_item_witness :
  parseItems (str "  3) Smith and Jones ") = [stripPrefix (trim (str "  3) Smith and Jones "))].
Proof.
  apply parseItems_single_item; [discriminate|].
  intros c Hc. vm_compute in Hc.
  repeat (destruct Hc as [<-|Hc]; [split; reflexivity|]). destruct Hc.
Defined.

(** ** When nothing is found *)

Lemma dropWhile_nil_all p s : dropWhile p s = [] -> forallb p s = true.
Proof.
  induction s as [|x s IH]; [reflexivity|].
  simpl; destruct (p x); [assumption | discriminate].
Qed.

Lemma trim_nil_blank s : trim s = [] -> forallb isWhiteSpace s = true.
Proof.
  unfold trim, trimStart; intros H.
  destruct (dropWhile isWhiteSpace s) as [|c a] eqn:E.
  - apply dropWhile_nil_all; assumption.
  - rewrite trimEnd_cons in H by (eapply dropWhile_head; eassumption).
    discriminate.
Qed.

(** Every unit of the text is a separator or lies in a segment. *)
Lemma split_cover sep s c :
  In c s -> sep c = true \/ exists seg, In seg (split sep s) /\ In c seg.
Proof.
  induction s as [|x s IH]; [intros []|].
  intros [<-|H]; simpl.
  - destruct (sep x) eqn:E; [left; reflexivity | right].
    destruct (split sep s) as [|seg0 segs] eqn:Es; [no_segments|].
    exists (x :: seg0); split; left; reflexivity.
  - destruct (IH H) as [Hs|(seg & Hseg & Hc)]; [left; assumption | right].
    destruct (sep x).
    + exists seg; split; [right|]; assumption.
    + destruct (split sep s) as [|seg0 segs] eqn:Es; [no_segments|].
      destruct Hseg as [<-|Hseg].
      * exists (x :: seg0); split; [left; reflexivity | right; assumption].
      * exists seg; split; [right|]; assumption.
Qed.

Lemma toItems_nil segs :
  toItems segs = [] <-> (forall seg, In seg segs -> trim seg = []).
Proof.
  rewrite toItems_kept; split.
  - intros H seg Hseg.
    apply map_eq_nil in H.
    destruct (trim seg) as [|c a] eqn:E; [reflexivity|].
    assert (Hin : In seg (filter (fun seg => truthy (trim seg)) segs))
      by (apply filter_In; split; [assumption | rewrite E; reflexivity]).
    rewrite H in Hin; destruct Hin.
  - intros H. induction segs as [|seg segs IH]; [reflexivity|].
    simpl. rewrite (H seg) by (left; reflexivity). simpl.
    apply IH; intros seg' Hseg'; apply H; right; assumption.
Qed.

(** X3: the result is empty exactly when the normalized text holds
    nothing but white space and separators. *)
Theorem parseItems_empty_iff (s : jsstring) :
  parseItems s = [] <->
  (forall c, In c (normalize (trim s)) ->
             isWhiteSpace c = true \/
             chosenSeparator (normalize (trim s)) c = true).
Proof.
  destruct (trim s) as [|y a] eqn:E.
  - split; [intros _ c [] | intros _; apply parseItems_blank; assumption].
  - rewrite parseItems_segments, E by (rewrite E; discriminate).
    set (t := normalize (y :: a)). rewrite toItems_nil. split.
    + intros H c Hc.
      destruct (split_cover (chosenSeparator t) t c Hc) as [Hs|(seg & Hseg & Hin)];
        [right; assumption | left].
      apply H, trim_nil_blank in Hseg.
      rewrite forallb_forall in Hseg; apply Hseg; assumption.
    + intros H seg Hseg. apply trim_blank, forallb_forall.
      intros c Hc. destruct (split_In _ _ _ _ Hseg Hc) as [Ht Hsep].
      destruct (H c Ht) as [Hw|Hs]; [assumption | congruence].
Qed.

Lemma parseItems_empty_iff_witness :
  parseItems (str " , \ ,") = [].
Proof.
  apply (proj2 (parseItems_empty_iff (str " , \ ,"))).
  intros c Hc. vm_compute in Hc.
  repeat (destruct Hc as [<-|Hc]; [(left; reflexivity) || (right; reflexivity)|]).
  destruct Hc.
Defined.

(** ** Sizes *)

(** X4: there is at most one item more than there are separators in the
    normalized text. *)
Theorem parseItems_count_bound (s : jsstring) :
  (List.length (parseItems s)
   <= S (count (chosenSeparator (normalize (trim s))) (normalize (trim s))))%nat.
Proof.
  destruct (trim s) as [|y a] eqn:E.
  - rewrite parseItems_blank by assumption; simpl; lia.
  - rewrite parseItems_segments, E by (rewrite E; discriminate).
    rewrite <- split_length. unfold toItems.
    rewrite length_map.
    etransitivity; [apply filter_length_le|].
    rewrite length_map; reflexivity.
Qed.

(** ** Items are pieces of the text *)

(** X5: every item is a contiguous piece of the normalized text: the
    parser neither reorders nor invents code units. *)
Theorem parseItems_items_infix (s x : jsstring) :
  In x (parseItems s) -> is_infix x (normalize (trim s)).
Proof.
  intros H; apply parseItems_In in H; destruct H as (seg & Hseg & _ & ->).
  eapply is_infix_trans; [apply stripPrefix_infix|].
  eapply is_infix_trans; [apply trim_infix|].
  eapply Interleaved_infix; [apply split_Interleaved | eassumption].
Qed.

Lemma parseItems_items_infix_witness :
  is_infix (str "b c") (normalize (trim (str " a ,  2) b c  "))).
Proof.
  apply parseItems_items_infix. right; left; reflexivity.
Defined.

Lemma is_infix_length x t : is_infix x t -> (List.length x <= List.length t)%nat.
Proof. intros (a & b & ->); rewrite !length_app; lia. Qed.

Lemma replace1_length a r s : List.length (replace1 a [r] s) = List.length s.
Proof.
  induction s as [|x s IH]; [reflexivity|].
  simpl; destruct (x =? a); simpl; rewrite IH; reflexivity.
Qed.

Lemma replace2_length a b r s :
  (List.length (replace2 a b [r] s) <= List.length s)%nat.
Proof.
  assert (H : forall s,
             (List.length (replace2 a b [r] s) <= List.length s)%nat /\
             forall x, (List.length (replace2 a b [r] (x :: s))
                        <= S (List.length s))%nat).
  { clear s; induction s as [|y s [IH1 IH2]]; split.
    - simpl; lia.
    - intros x; simpl; lia.
    - apply IH2.
    - intros x; rewrite replace2_cons2.
      destruct ((x =? a) && (y =? b)); simpl.
      + lia.
      + specialize (IH2 y); simpl in IH2 |- *; lia. }
  apply H.
Qed.

Lemma normalize_length t : (List.length (normalize t) <= List.length t)%nat.
Proof.
  unfold normalize, normalizeBreaks, normalizeEscapes.
  rewrite !replace1_length.
  repeat (etransitivity; [apply replace2_length|]). lia.
Qed.

Lemma split_totalLength sep s :
  (totalLength (split sep s) + count sep s = List.length s)%nat.
Proof.
  unfold totalLength, count; induction s as [|x s IH]; [reflexivity|].
  simpl. destruct (sep x); simpl; [lia|].
  destruct (split sep s) as [|seg0 segs]; simpl in *; lia.
Qed.

Lemma toItems_totalLength segs : (totalLength (toItems segs) <= totalLength segs)%nat.
Proof.
  unfold totalLength, toItems; induction segs as [|seg segs IH]; [simpl; lia|].
  simpl. pose proof (is_infix_length _ _ (trim_infix seg)) as H1.
  pose proof (is_infix_length _ _ (stripPrefix_infix (trim seg))) as H2.
  destruct (truthy (trim seg)); simpl; lia.
Qed.

(** X6: the items together, plus the separators between the segments,
    never hold more code units than the selection. *)
Theorem parseItems_size_bound (s : jsstring) :
  (totalLength (parseItems s)
   + count (chosenSeparator (normalize (trim s))) (normalize (trim s))
   <= List.length s)%nat.
Proof.
  pose proof (is_infix_length _ _ (trim_infix s)) as Htrim.
  pose proof (normalize_length (trim s)) as Hnorm.
  pose proof (split_totalLength (chosenSeparator (normalize (trim s)))
                (normalize (trim s))) as Hsplit.
  destruct (trim s) as [|y a] eqn:E.
  - rewrite parseItems_blank by assumption.
    change (normalize []) with (@nil Z) in *. simpl in *; lia.
  - rewrite parseItems_segments, E by (rewrite E; discriminate).
    pose proof (toItems_totalLength
                  (split (chosenSeparator (normalize (y :: a))) (normalize (y :: a)))).
    lia.
Qed.

(** ** Empty items *)

Lemma LeadingPrefix_nonempty p : LeadingPrefix p -> p <> [].
Proof.
  intros [ | | |ds Hne Hds|ds c Hne Hds Hc]; try discriminate.
  destruct ds; [congruence | discriminate].
Qed.

(** A non-empty string that is its own trim starts with a unit that is
    not white space, and [trimEnd] leaves it alone. *)
Lemma trimmed_trimEnd x : trim x = x -> trimEnd x = x.
Proof.
  intros H; rewrite <- H at 1; unfold trim.
  rewrite trimEnd_idem; exact H.
Qed.

Lemma trimmed_head x :
  trim x = x -> x <> [] -> exists c a, x = c :: a /\ isWhiteSpace c = false.
Proof.
  unfold trim, trimStart; intros H Hne.
  destruct (dropWhile isWhiteSpace x) as [|c d] eqn:E.
  - exfalso; apply Hne; rewrite <- H; reflexivity.
  - pose proof (dropWhile_head _ _ _ _ E) as Hc.
    rewrite trimEnd_cons in H by assumption.
    exists c, (trimEnd d); split; [symmetry; assumption | assumption].
Qed.

Lemma trimmed_hasWord x : trim x = x -> x <> [] -> hasWord x = true.
Proof.
  intros H Hne; destruct (trimmed_head x H Hne) as (c & a & -> & Hc).
  unfold hasWord; simpl; rewrite Hc; reflexivity.
Qed.

(** On a trimmed, non-empty string [stripPrefix] gives the empty string
    exactly when the string is nothing but a prefix. *)
Lemma stripPrefix_nil_iff y :
  trim y = y -> y <> [] -> (stripPrefix y = [] <-> LeadingPrefix y).
Proof.
  intros Ht Hne; split.
  - intros H. rewrite stripPrefix_afterPrefix in H.
    destruct (afterPrefix y) as [rest|] eqn:E.
    + destruct (afterPrefix_only_leading _ _ E) as (p & r & Hp & ->).
      rewrite (afterPrefix_leading p r Hp) in E; injection E as <-.
      rewrite trim_dropWhile in H. apply trim_nil_blank in H.
      pose proof (trimmed_trimEnd _ Ht) as Hend.
      rewrite trimEnd_blank_right in Hend by assumption.
      destruct (trimEnd_prefix p) as [b Hb].
      assert (Hlen : List.length (p ++ r) = List.length (trimEnd p))
        by (rewrite Hend; reflexivity).
      rewrite Hb in Hlen at 1. rewrite !length_app in Hlen.
      destruct r; [rewrite app_nil_r; assumption | simpl in Hlen; lia].
    + rewrite Ht in H; contradiction.
  - intros H. rewrite <- (app_nil_r y), stripPrefix_leading by assumption.
    reflexivity.
Qed.

Lemma toItems_In_intro seg segs :
  In seg segs -> trim seg <> [] -> In (stripPrefix (trim seg)) (toItems segs).
Proof.
  intros Hseg Hne; unfold toItems.
  apply in_map, filter_In; split; [apply in_map; assumption|].
  destruct (trim seg); [contradiction Hne; reflexivity | reflexivity].
Qed.

(** X7: the result holds an empty string exactly when some segment,
    once trimmed, is nothing but a bullet or numbering prefix. *)
Theorem parseItems_empty_item_iff (s : jsstring) :
  In [] (parseItems s) <->
  exists seg,
    In seg (split (chosenSeparator (normalize (trim s))) (normalize (trim s))) /\
    LeadingPrefix (trim seg).
Proof.
  split.
  - intros H; apply parseItems_In in H; destruct H as (seg & Hseg & Hne & E).
    exists seg; split; [assumption|].
    apply stripPrefix_nil_iff; auto using trim_idem.
  - intros (seg & Hseg & Hp).
    pose proof (LeadingPrefix_nonempty _ Hp) as Hne.
    destruct (trim s) as [|y a] eqn:E.
    + change (normalize []) with (@nil Z) in Hseg.
      destruct Hseg as [<-|[]]; contradiction Hne; reflexivity.
    + rewrite parseItems_segments, E by (rewrite E; discriminate).
      replace (@nil Z) with (stripPrefix (trim seg)).
      * apply toItems_In_intro; assumption.
      * apply stripPrefix_nil_iff; auto using trim_idem.
Qed.

Lemma parseItems_empty_item_iff_witness :
  In [] (parseItems (str "pears, (12) ,plums")).
Proof.
  apply (proj2 (parseItems_empty_item_iff (str "pears, (12) ,plums"))).
  exists (str " (12) "); split.
  - right; left; reflexivity.
  - apply (LP_parenthesized (str "12")); [discriminate | reflexivity].
Defined.

(** ** One item per line, and back *)

Lemma join_In d items c :
  In c (join d items) -> c = d \/ exists x, In x items /\ In c x.
Proof.
  induction items as [|x items IH]; [intros []|].
  destruct items as [|y items].
  - simpl; intros H; right; exists x; auto.
  - rewrite join_cons; intros H; apply in_app_or in H.
    destruct H as [H|[<-|H]].
    + right; exists x; split; [left; reflexivity | assumption].
    + left; reflexivity.
    + destruct (IH H) as [->|(z & Hz & Hc)]; [left; reflexivity | right].
      exists z; split; [right|]; assumption.
Qed.

Lemma split_app_sep sep x d r :
  (forall c, In c x -> sep c = false) -> sep d = true ->
  split sep (x ++ d :: r) = x :: split sep r.
Proof.
  intros Hx Hd; induction x as [|c x IH]; simpl.
  - rewrite Hd; reflexivity.
  - rewrite (Hx c) by (left; reflexivity).
    rewrite IH by (intros c' Hc'; apply Hx; right; assumption).
    reflexivity.
Qed.

Lemma split_join sep d items :
  items <> [] -> sep d = true ->
  (forall x c, In x items -> In c x -> sep c = false) ->
  split sep (join d items) = items.
Proof.
  intros Hne Hd; induction items as [|x items IH]; [contradiction|].
  intros H. destruct items as [|y items].
  - simpl; apply split_plain; intros c Hc; apply (H x); [left; reflexivity | assumption].
  - rewrite join_cons, split_app_sep; auto.
    + f_equal; apply IH; [discriminate|].
      intros z c Hz Hc; apply (H z); [right|]; assumption.
    + intros c Hc; apply (H x); [left; reflexivity | assumption].
Qed.

Lemma hasWord_app a b : hasWord (a ++ b) = hasWord a || hasWord b.
Proof. unfold hasWord; apply existsb_app. Qed.

Lemma join_trimEnd d items :
  items <> [] -> (forall x, In x items -> trim x = x /\ x <> []) ->
  trimEnd (join d items) = join d items /\ hasWord (join d items) = true.
Proof.
  intros Hne; induction items as [|x items IH]; [contradiction|].
  intros H. destruct (H x (or_introl eq_refl)) as [Hx Hxne].
  destruct items as [|y items].
  - simpl; split; [apply trimmed_trimEnd | apply trimmed_hasWord]; assumption.
  - destruct IH as [IH1 IH2];
      [discriminate | intros z Hz; apply H; right; assumption|].
    rewrite join_cons; split.
    + change (x ++ d :: join d (y :: items)) with (x ++ [d] ++ join d (y :: items)).
      rewrite app_assoc, trimEnd_app_word, IH1 by assumption; reflexivity.
    + rewrite hasWord_app, (trimmed_hasWord x) by assumption; reflexivity.
Qed.

Lemma join_trimmed d items :
  items <> [] -> (forall x, In x items -> trim x = x /\ x <> []) ->
  trim (join d items) = join d items.
Proof.
  intros Hne H. destruct (join_trimEnd d items Hne H) as [Hend _].
  unfold trim, trimStart.
  destruct items as [|x items]; [contradiction|].
  destruct (H x (or_introl eq_refl)) as [Hx Hxne].
  destruct (trimmed_head x Hx Hxne) as (c & a & E & Hc).
  assert (Hj : exists b, join d (x :: items) = c :: b).
  { destruct items; [exists a; assumption|].
    rewrite join_cons, E; eexists; reflexivity. }
  destruct Hj as [b Hj]. rewrite Hj in *.
  rewrite dropWhile_start by assumption; assumption.
Qed.

Lemma plainItem_trimmed x : plainItem x -> trim x = x.
Proof. intros (H & _); rewrite <- H; apply stripPrefix_trimmed. Qed.

Lemma toItems_plain items : (forall x, In x items -> plainItem x) -> toItems items = items.
Proof.
  unfold toItems; induction items as [|x items IH]; [reflexivity|].
  intros H. pose proof (H x (or_introl eq_refl)) as Hx.
  simpl. rewrite (plainItem_trimmed x Hx).
  destruct Hx as (Hs & Hne & _).
  destruct x as [|c x]; [contradiction Hne; reflexivity|].
  simpl. rewrite Hs. f_equal.
  apply IH; intros z Hz; apply H; right; assumption.
Qed.

(** X8: a list of plain items is recovered by parsing the text that puts
    one item on each line; a single item must also be free of commas,
    since a one-line selection is split at commas. *)
Theorem parseItems_join_roundtrip (items : list jsstring) :
  (forall x, In x items -> plainItem x) ->
  (forall x, items = [x] -> ~ In Ch.comma x) ->
  parseItems (join Ch.LF items) = items.
Proof.
  intros Hplain Hcomma.
  destruct items as [|x1 rest]; [reflexivity|].
  set (items := x1 :: rest) in *.
  assert (Hne : items <> []) by discriminate.
  assert (Htr : forall x, In x items -> trim x = x /\ x <> []).
  { intros x Hx; split; [apply plainItem_trimmed; auto | apply (Hplain x Hx)]. }
  pose proof (join_trimmed Ch.LF items Hne Htr) as Hj.
  destruct (join_trimEnd Ch.LF items Hne Htr) as [_ Hw].
  assert (Hchars : forall c, In c (join Ch.LF items) ->
                             c = Ch.LF \/ (isLineBreak c = false /\ c <> Ch.backslash)).
  { intros c Hc; apply join_In in Hc; destruct Hc as [->|(x & Hx & Hc)]; [auto|].
    right; apply (Hplain x Hx); assumption. }
  assert (Hn : normalize (join Ch.LF items) = join Ch.LF items).
  { apply normalize_plain; intros Hc; apply Hchars in Hc;
      destruct Hc as [Hc|[Hb Hbs]]; try discriminate Hc; try congruence;
      apply isLineBreak_false in Hb; tauto. }
  assert (HnoLF : forall x c, In x items -> In c x -> isLF c = false).
  { intros x c Hx Hc. destruct (Hplain x Hx) as (_ & _ & H).
    destruct (H c Hc) as [Hb _]. apply isLineBreak_false in Hb.
    unfold isLF; apply Z.eqb_neq; tauto. }
  rewrite parseItems_segments; rewrite Hj.
  2:{ intros E; rewrite E in Hw; discriminate. }
  rewrite Hn.
  assert (Hsplit : split (chosenSeparator (join Ch.LF items)) (join Ch.LF items)
                   = items);
    [|rewrite Hsplit; apply toItems_plain; assumption].
  destruct rest as [|x2 rest].
  - (* one item: no separator of either kind occurs in it *)
    cbn [items join]. apply split_plain. intros c Hc.
    destruct (chosenSeparator x1 c) eqn:E; [exfalso | reflexivity].
    destruct (Hplain x1 (or_introl eq_refl)) as (_ & _ & H).
    destruct (H c Hc) as [Hb Hbs].
    apply chosenSeparator_cases in E; destruct E as [E|E].
    + rewrite (HnoLF x1 c (or_introl eq_refl) Hc) in E; discriminate.
    + unfold isDelimiter in E; apply orb_prop in E.
      destruct E as [E|E]; apply Z.eqb_eq in E; subst c; [congruence|].
      exact (Hcomma x1 eq_refl Hc).
  - (* several items: the text holds a line break *)
    assert (Hsep : chosenSeparator (join Ch.LF items) = isLF).
    { unfold chosenSeparator.
      replace (includes Ch.LF (join Ch.LF items)) with true; [reflexivity|].
      symmetry; apply includes_In. unfold items; rewrite join_cons.
      apply in_or_app; right; left; reflexivity. }
    rewrite Hsep; apply split_join; [assumption | reflexivity | assumption].
Qed.

Lemma parseItems_join_roundtrip_witness :
  parseItems (join Ch.LF [str "Smith, John"; str "42 apples"; str "a-b"])
  = [str "Smith, John"; str "42 apples"; str "a-b"].
Proof.
  apply parseItems_join_roundtrip.
  - intros x Hx.
    repeat (destruct Hx as [<-|Hx];
            [split; [reflexivity|]; split; [discriminate|];
             intros c Hc; vm_compute in Hc;
             repeat (destruct Hc as [<-|Hc]; [split; [reflexivity | discriminate]|]);
             destruct Hc|]).
    destruct Hx.
  - intros x E; discriminate E.
Defined.

(** ** Line breaks of every kind *)

Lemma split_ext sep1 sep2 s :
  (forall c, sep1 c = sep2 c) -> split sep1 s = split sep2 s.
Proof.
  intros H; induction s as [|x s IH]; [reflexivity|].
  simpl; rewrite H, IH; reflexivity.
Qed.

(** Turning a unit into a separator first, or splitting at it as well,
    gives the same segments. *)
Lemma split_replace1 sep a r s :
  sep r = true ->
  split sep (replace1 a [r] s) = split (fun c => sep c || (c =? a)) s.
Proof.
  intros Hr; induction s as [|x s IH]; [reflexivity|].
  simpl. destruct (x =? a) eqn:E; simpl.
  - rewrite Hr, orb_true_r, IH; reflexivity.
  - rewrite orb_false_r, IH; reflexivity.
Qed.

Lemma toItems_cons h l :
  toItems (h :: l) =
    (if truthy (trim h) then [stripPrefix (trim h)] else []) ++ toItems l.
Proof. unfold toItems; simpl; destruct (truthy (trim h)); reflexivity. Qed.

Lemma toItems_cons_congr h l1 l2 :
  toItems l1 = toItems l2 -> toItems (h :: l1) = toItems (h :: l2).
Proof. intros H; rewrite !toItems_cons, H; reflexivity. Qed.

(** Merging a two-unit break into one separator drops an empty segment
    and nothing else. *)
Lemma split_replace2_items sep a b r s :
  sep a = true -> sep b = true -> sep r = true ->
  toItems (split sep (replace2 a b [r] s)) = toItems (split sep s).
Proof.
  intros Ha Hb Hr.
  assert (H : forall s,
    (exists h l1 l2, split sep (replace2 a b [r] s) = h :: l1 /\
                     split sep s = h :: l2 /\ toItems l1 = toItems l2) /\
    (forall x, exists h l1 l2,
        split sep (replace2 a b [r] (x :: s)) = h :: l1 /\
        split sep (x :: s) = h :: l2 /\ toItems l1 = toItems l2)).
  { clear s; induction s as [|y s [IH1 IH2]]; split.
    - exists [], [], []; auto.
    - intros x. cbn [replace2].
      destruct (split sep [x]) as [|h l] eqn:E; [no_segments|].
      exists h, l, l; auto.
    - apply IH2.
    - intros x; rewrite replace2_cons2.
      destruct ((x =? a) && (y =? b)) eqn:E.
      + apply andb_prop in E; destruct E as [E1 E2].
        apply Z.eqb_eq in E1, E2; subst x y.
        destruct IH1 as (h & l1 & l2 & H1 & H2 & H3).
        exists [], (h :: l1), ([] :: h :: l2).
        cbn [app split]. rewrite Ha, Hb, Hr, H1, H2.
        repeat split. rewrite (toItems_cons []). simpl.
        apply toItems_cons_congr; assumption.
      + destruct (IH2 y) as (h & l1 & l2 & H1 & H2 & H3).
        cbn [split]. cbn [split] in H2. rewrite H1, H2.
        destruct (sep x).
        * exists [], (h :: l1), (h :: l2); repeat split.
          apply toItems_cons_congr; assumption.
        * exists (x :: h), l1, l2; auto. }
  destruct (proj1 (H s)) as (h & l1 & l2 & H1 & H2 & H3).
  rewrite H1, H2; apply toItems_cons_congr; assumption.
Qed.

(** Normalizing the line breaks and splitting at [LF] finds the same
    items as splitting at every line-break unit. *)
Lemma toItems_normalizeBreaks e :
  toItems (split isLF (normalizeBreaks e)) = toItems (split isLineBreak e).
Proof.
  unfold normalizeBreaks.
  rewrite !split_replace1 by reflexivity.
  rewrite split_replace2_items by reflexivity.
  f_equal; apply split_ext; intros c.
  unfold isLF, isLineBreak.
  destruct (c =? Ch.LF), (c =? Ch.CR), (c =? Ch.LS), (c =? Ch.PS); reflexivity.
Qed.

(** X9: when the normalized text holds a line break, the items are the
    non-blank pieces between the line-break units (linefeed, carriage
    return, line separator, paragraph separator) of the trimmed text with
    its escapes resolved: each of the four units ends a line, and the
    empty line inside a carriage-return/linefeed pair is dropped with the
    other blank lines. *)
Theorem parseItems_line_breaks (s : jsstring) :
  includes Ch.LF (normalize (trim s)) = true ->
  parseItems s = toItems (split isLineBreak (normalizeEscapes (trim s))).
Proof.
  intros H.
  assert (Hne : trim s <> []) by (intros E; rewrite E in H; discriminate).
  rewrite parseItems_segments by assumption.
  unfold chosenSeparator; rewrite H; cbn [negb andb].
  apply toItems_normalizeBreaks.
Qed.

Lemma parseItems_line_breaks_witness :
  parseItems (str "a" ++ [Ch.CR; Ch.LF] ++ str "b" ++ [Ch.LS; Ch.PS] ++ str "c")
  = toItems (split isLineBreak
               (normalizeEscapes
                  (trim (str "a" ++ [Ch.CR; Ch.LF] ++ str "b" ++ [Ch.LS; Ch.PS] ++ str "c")))).
Proof.
  apply parseItems_line_breaks; reflexivity.
Defined.

(** ** A selection on one line *)

Lemma replace1_unchanged a r s : ~ In r (replace1 a [r] s) -> replace1 a [r] s = s.
Proof.
  induction s as [|x s IH]; [reflexivity|].
  simpl; destruct (x =? a); simpl.
  - intros H; exfalso; apply H; left; reflexivity.
  - intros H; rewrite IH; [reflexivity | intros H'; apply H; right; assumption].
Qed.

Lemma replace2_unchanged a b r s :
  ~ In r (replace2 a b [r] s) -> replace2 a b [r] s = s.
Proof.
  assert (H : forall s,
             (~ In r (replace2 a b [r] s) -> replace2 a b [r] s = s) /\
             (forall x, ~ In r (replace2 a b [r] (x :: s)) ->
                        replace2 a b [r] (x :: s) = x :: s)).
  { clear s; induction s as [|y s [IH1 IH2]]; split; auto.
    intros x; rewrite replace2_cons2.
    destruct ((x =? a) && (y =? b)).
    - intros H; exfalso; apply H; left; reflexivity.
    - intros H; rewrite (IH2 y); [reflexivity|].
      intros H'; apply H; right; assumption. }
  apply H.
Qed.

(** When no line break comes out of the normalization, nothing was
    replaced at all. *)
Lemma normalize_unchanged t : ~ In Ch.LF (normalize t) -> normalize t = t.
Proof.
  unfold normalize, normalizeBreaks, normalizeEscapes; intros H.
  rewrite replace1_unchanged in H |- * by assumption.
  rewrite replace1_unchanged in H |- * by assumption.
  rewrite replace1_unchanged in H |- * by assumption.
  rewrite replace2_unchanged in H |- * by assumption.
  rewrite replace2_unchanged in H |- * by assumption.
  apply replace2_unchanged; assumption.
Qed.

(** X10: when the normalized text holds no line break, the selection had
    neither a line break nor an escape sequence inside, and the items are
    the non-blank pieces between the backslashes and commas of the trimmed
    selection as it stands. *)
Theorem parseItems_one_line (s : jsstring) :
  includes Ch.LF (normalize (trim s)) = false ->
  normalize (trim s) = trim s /\
  parseItems s = toItems (split isDelimiter (trim s)).
Proof.
  intros H.
  assert (Hn : normalize (trim s) = trim s)
    by (apply normalize_unchanged, includes_not_In; assumption).
  split; [assumption|].
  destruct (trim s) as [|y a] eqn:E; [apply parseItems_blank; assumption|].
  rewrite parseItems_segments, E, Hn by (rewrite E; discriminate).
  rewrite Hn in H. unfold chosenSeparator; rewrite H; cbn [negb andb].
  destruct (includes Ch.backslash (y :: a) || includes Ch.comma (y :: a)) eqn:Hd;
    [reflexivity|].
  apply orb_false_elim in Hd; destruct Hd as [Hb Hc].
  apply includes_not_In in H, Hb, Hc.
  rewrite !split_plain; [reflexivity | |].
  - intros c Hin; unfold isDelimiter; apply orb_false_intro; apply Z.eqb_neq;
      intros ->; contradiction.
  - intros c Hin; unfold isLF; apply Z.eqb_neq; intros ->; contradiction.
Qed.

Lemma parseItems_one_line_witness :
  parseItems (str " x\y, z ") = toItems (split isDelimiter (trim (str " x\y, z "))).
Proof.
  apply (proj2 (parseItems_one_line (str " x\y, z ") eq_refl)).
Defined.

(** * Further properties of the flows *)

(** The flow of [bulletsFromSelection], outcome by outcome. *)
Lemma bulletsFromSelection_run h w :
  bulletsFromSelection h w =
    match syncLoad h with
    | Some e =>
        ({| insertBtn := option_map (fun _ => false) (insertBtn w);
            bulletsBtn := option_map (fun _ => false) (bulletsBtn w);
            titleInput := option_map (fun _ => false) (titleInput w);
            statusEl := shows (String.append "Error creating bullets: " (errorText e))
                              error (statusEl w);
            doc := doc w; console := console w ++ [e] |}, inr tt)
    | None =>
        match parseItems (selectionText h), syncWrite h with
        | (_ :: _) as items, Some e =>
            ({| insertBtn := option_map (fun _ => false) (insertBtn w);
                bulletsBtn := option_map (fun _ => false) (bulletsBtn w);
                titleInput := option_map (fun _ => false) (titleInput w);
                statusEl := shows (String.append "Error creating bullets: " (errorText e))
                                  error (statusEl w);
                doc := doc w ++ requestsFor items;
                console := console w ++ [e] |}, inr tt)
        | items, _ =>
            ({| insertBtn := option_map (fun _ => false) (insertBtn w);
                bulletsBtn := option_map (fun _ => false) (bulletsBtn w);
                titleInput := option_map (fun _ => false) (titleInput w);
                statusEl := shows "Bullets created." success (statusEl w);
                doc := doc w ++ requestsFor items;
                console := console w |}, inr tt)
        end
    end.
Proof.
  unfold bulletsFromSelection, try_catch_finally, bulletsBatch, parseItemsM, bind, shows.
  destruct w as [ib bb ti st d c].
  destruct (syncLoad h) as [e|].
  - destruct ib, bb, ti, st; reflexivity.
  - cbn [sync ret setBusy setStatus modify].
    destruct (parseItems (selectionText h)) as [|first rest].
    + cbn. rewrite app_nil_r. destruct ib, bb, ti, st; reflexivity.
    + unfold bind, issue, modify. rewrite insertRest_run.
      destruct (syncWrite h); cbn; rewrite <- !app_assoc;
        destruct ib, bb, ti, st; reflexivity.
Qed.

Lemma paragraphTexts_app ops1 ops2 :
  paragraphTexts (ops1 ++ ops2) = paragraphTexts ops1 ++ paragraphTexts ops2.
Proof.
  induction ops1 as [|op ops1 IH]; [reflexivity|].
  destruct op; simpl; rewrite IH; reflexivity.
Qed.

Lemma paragraphTexts_requestsFor items : paragraphTexts (requestsFor items) = items.
Proof.
  destruct items as [|first rest]; [reflexivity|].
  simpl; f_equal. induction rest as [|x rest IH]; [reflexivity|].
  simpl; rewrite IH; reflexivity.
Qed.

Lemma errorText_nonempty e : errorText e <> EmptyString.
Proof.
  unfold errorText; destruct (message e) as [m|]; [|discriminate].
  destruct (String.eqb m "") eqn:E; [discriminate|].
  apply String.eqb_neq in E; assumption.
Qed.

(** X11: whatever the host answers, [bulletsFromSelection] does not
    throw, and every control that exists is enabled again at the end. *)
Theorem bulletsFromSelection_settles (h : Host) (w : World) :
  snd (bulletsFromSelection h w) = inr tt /\
  enabled w (fst (bulletsFromSelection h w)).
Proof.
  rewrite bulletsFromSelection_run; unfold enabled.
  destruct (syncLoad h); [repeat split|].
  destruct (parseItems (selectionText h)), (syncWrite h); repeat split.
Qed.

(** X12: when reading the selection fails, nothing is requested from the
    document whatever the selection holds; the error is logged, and the
    status is an error whose description is never empty. *)
Theorem bulletsFromSelection_read_failure (h : Host) (w : World) (e : Err) :
  syncLoad h = Some e ->
  doc (fst (bulletsFromSelection h w)) = doc w /\
  console (fst (bulletsFromSelection h w)) = console w ++ [e] /\
  statusEl (fst (bulletsFromSelection h w))
  = shows (String.append "Error creating bullets: " (errorText e)) error (statusEl w) /\
  errorText e <> EmptyString.
Proof.
  intros H; rewrite bulletsFromSelection_run, H.
  repeat split. apply errorText_nonempty.
Qed.

Lemma bulletsFromSelection_read_failure_witness :
  doc (fst (bulletsFromSelection
              {| selectionText := str "a,b"; syncLoad := Some {| message := None |};
                 syncWrite := None |} readyWorld)) = [].
Proof.
  apply (proj1 (bulletsFromSelection_read_failure
                  {| selectionText := str "a,b"; syncLoad := Some {| message := None |};
                     syncWrite := None |} readyWorld {| message := None |} eq_refl)).
Defined.

(** X13: once the selection is read, the requests issued are decided by
    the items alone, whether or not the final synchronization succeeds:
    none for the empty list; otherwise the selection is replaced by the
    empty text, the first item is inserted as a paragraph after the range,
    a list is started from it, and every other item is inserted into the
    list at its end, in the order of the items.  The paragraphs requested
    are thus the items, one for each and in their order. *)
Theorem bulletsFromSelection_paragraphs (h : Host) (w : World) :
  syncLoad h = None ->
  doc (fst (bulletsFromSelection h w))
  = doc w ++
    match parseItems (selectionText h) with
    | [] => []
    | first :: rest =>
        RangeInsertText [] locReplace
        :: RangeInsertParagraph first locAfter
        :: StartNewList
        :: map (fun item => ListInsertParagraph item locEnd) rest
    end /\
  paragraphTexts (doc (fst (bulletsFromSelection h w)))
  = paragraphTexts (doc w) ++ parseItems (selectionText h).
Proof.
  intros H; rewrite bulletsFromSelection_run, H.
  destruct (parseItems (selectionText h)) as [|first rest] eqn:E.
  - cbn [fst doc requestsFor]. rewrite !app_nil_r; split; reflexivity.
  - destruct (syncWrite h); cbn [fst doc]; (split; [reflexivity|]);
      rewrite paragraphTexts_app, paragraphTexts_requestsFor; reflexivity.
Qed.

Lemma bulletsFromSelection_paragraphs_witness :
  paragraphTexts (doc (fst (bulletsFromSelection
                              (selecting (str "1. tea, 2. milk")) readyWorld)))
  = paragraphTexts (doc readyWorld) ++ parseItems (str "1. tea, 2. milk").
Proof.
  apply (proj2 (bulletsFromSelection_paragraphs (selecting (str "1. tea, 2. milk"))
                  readyWorld eq_refl)).
Defined.

(** X14: when the final synchronization fails, the requests have been
    issued all the same, the error is logged, and the status is the error
    with its description. *)
Theorem bulletsFromSelection_write_failure (h : Host) (w : World) (e : Err) :
  syncLoad h = None -> parseItems (selectionText h) <> [] ->
  syncWrite h = Some e ->
  doc (fst (bulletsFromSelection h w))
  = doc w ++ requestsFor (parseItems (selectionText h)) /\
  console (fst (bulletsFromSelection h w)) = console w ++ [e] /\
  statusEl (fst (bulletsFromSelection h w))
  = shows (String.append "Error creating bullets: " (errorText e)) error (statusEl w).
Proof.
  intros H1 H2 H3; rewrite bulletsFromSelection_run, H1, H3.
  destruct (parseItems (selectionText h)); [contradiction H2; reflexivity|].
  repeat split.
Qed.

Lemma bulletsFromSelection_write_failure_witness :
  console (fst (bulletsFromSelection
                  {| selectionText := str "a"; syncLoad := None;
                     syncWrite := Some {| message := Some "busy"%string |} |}
                  readyWorld))
  = [{| message := Some "busy"%string |}].
Proof.
  apply (proj1 (proj2 (bulletsFromSelection_write_failure
                         {| selectionText := str "a"; syncLoad := None;
                            syncWrite := Some {| message := Some "busy"%string |} |}
                         readyWorld {| message := Some "busy"%string |}
                         eq_refl ltac:(discriminate) eq_refl))).
Defined.

(** X15: when no host call fails, nothing is logged and the status ends
    as the success acknowledgment, for an empty item list as well. *)
Theorem bulletsFromSelection_no_failure (h : Host) (w : World) :
  syncLoad h = None -> syncWrite h = None ->
  console (fst (bulletsFromSelection h w)) = console w /\
  statusEl (fst (bulletsFromSelection h w))
  = shows "Bullets created." success (statusEl w).
Proof.
  intros H1 H2; rewrite bulletsFromSelection_run, H1, H2.
  destruct (parseItems (selectionText h)); repeat split.
Qed.

Lemma bulletsFromSelection_no_failure_witness :
  statusEl (fst (bulletsFromSelection (selecting (str "a,b")) readyWorld))
  = shows "Bullets created." success (statusEl readyWorld).
Proof.
  apply (proj2 (bulletsFromSelection_no_failure (selecting (str "a,b")) readyWorld
                  eq_refl eq_refl)).
Defined.

(** ** The title *)

(** X16: the title is never empty and never has white space around it,
    whatever the input element holds and whether or not it exists. *)
Theorem getTitle_never_blank (value : option jsstring) :
  getTitle value <> [] /\ trim (getTitle value) = getTitle value.
Proof.
  unfold getTitle.
  destruct (trim (match value with Some v => v | None => [] end)) as [|c a] eqn:E.
  - split; [discriminate | reflexivity].
  - cbn [isEmpty]; split; [discriminate|].
    rewrite <- E; apply trim_idem.
Qed.

(** X17: the default title stands in exactly when the element is missing
    or holds white space only; otherwise the title is the trimmed value. *)
Theorem getTitle_cases (value : option jsstring) :
  (value = None -> getTitle value = defaultTitle) /\
  (forall v, value = Some v -> forallb isWhiteSpace v = true ->
             getTitle value = defaultTitle) /\
  (forall v, value = Some v -> hasWord v = true -> getTitle value = trim v).
Proof.
  repeat split.
  - intros ->; reflexivity.
  - intros v -> H; unfold getTitle; rewrite trim_blank by assumption; reflexivity.
  - intros v -> H; unfold getTitle.
    destruct (trim v) as [|c a] eqn:E; [|reflexivity].
    apply trim_nil_blank in E. apply hasWord_nonempty in H.
    rewrite dropWhile_all in H by assumption. contradiction H; reflexivity.
Qed.

Lemma getTitle_cases_witness :
  getTitle None = defaultTitle /\
  getTitle (Some [Ch.SP; Ch.TAB]) = defaultTitle /\
  getTitle (Some (str "  Minutes ")) = trim (str "  Minutes ").
Proof.
  split; [|split].
  - apply (proj1 (getTitle_cases None) eq_refl).
  - apply (proj1 (proj2 (getTitle_cases (Some [Ch.SP; Ch.TAB]))) _ eq_refl); reflexivity.
  - apply (proj2 (proj2 (getTitle_cases (Some (str "  Minutes ")))) _ eq_refl);
      reflexivity.
Defined.

(** ** The template flow *)

(** The flow of [insertTemplate], outcome by outcome. *)
Lemma insertTemplate_run h tw :
  let w := pane tw in
  let title := getTitle (match titleInput w with
                         | Some _ => Some (titleValue tw)
                         | None => None
                         end) in
  insertTemplate h tw =
    ({| pane :=
          {| insertBtn := option_map (fun _ => false) (insertBtn w);
             bulletsBtn := option_map (fun _ => false) (bulletsBtn w);
             titleInput := option_map (fun _ => false) (titleInput w);
             statusEl :=
               match syncTemplate h with
               | Some e => shows (String.append "Error inserting template: "
                                                (errorText e)) error (statusEl w)
               | None => shows "Template inserted." success (statusEl w)
               end;
             doc := doc w;
             console := match syncTemplate h with
                        | Some e => console w ++ [e]
                        | None => console w
                        end |};
        titleValue := titleValue tw;
        body := body tw ++ [templateRequests title (now h)] |}, inr tt).
Proof.
  destruct tw as [[ib bb ti st d c] tv b].
  unfold insertTemplate, try_catch_finallyT, templateBatch, getTitleT, bindT,
    onPane, shows.
  cbn [pane titleValue body setBusy setStatus console_error modify
       insertBtn bulletsBtn titleInput statusEl doc console option_map].
  destruct (syncTemplate h); destruct ib, bb, ti, st; reflexivity.
Qed.

(** X18: whatever the host answers, [insertTemplate] does not throw,
    every control that exists is enabled again at the end, and the typed
    title is left as it was. *)
Theorem insertTemplate_settles (h : TemplateHost) (tw : TemplateWorld) :
  snd (insertTemplate h tw) = inr tt /\
  enabled (pane tw) (pane (fst (insertTemplate h tw))) /\
  titleValue (fst (insertTemplate h tw)) = titleValue tw.
Proof.
  rewrite insertTemplate_run; unfold enabled; repeat split.
Qed.

(** X19: the status ends as the success acknowledgment exactly when the
    synchronization succeeds, with nothing logged; when it fails, the
    error is logged and the status is the error with its description. *)
Theorem insertTemplate_outcome (h : TemplateHost) (tw : TemplateWorld) :
  (syncTemplate h = None ->
   statusEl (pane (fst (insertTemplate h tw)))
   = shows "Template inserted." success (statusEl (pane tw)) /\
   console (pane (fst (insertTemplate h tw))) = console (pane tw)) /\
  (forall e, syncTemplate h = Some e ->
   statusEl (pane (fst (insertTemplate h tw)))
   = shows (String.append "Error inserting template: " (errorText e)) error
           (statusEl (pane tw)) /\
   console (pane (fst (insertTemplate h tw))) = console (pane tw) ++ [e]).
Proof.
  rewrite insertTemplate_run; split.
  - intros H; cbn [fst pane statusEl console]; rewrite H; split; reflexivity.
  - intros e H; cbn [fst pane statusEl console]; rewrite H; split; reflexivity.
Qed.

Lemma insertTemplate_outcome_witness :
  console (pane (fst (insertTemplate
                        {| now := str "1/2/2026"; syncTemplate := None |}
                        {| pane := readyWorld; titleValue := str "Notes"; body := [] |})))
  = console readyWorld /\
  console (pane (fst (insertTemplate
                        {| now := str "1/2/2026"; syncTemplate := Some {| message := None |} |}
                        {| pane := readyWorld; titleValue := str "Notes"; body := [] |})))
  = console readyWorld ++ [{| message := None |}].
Proof.
  split.
  { apply (proj2 (proj1 (insertTemplate_outcome
                           {| now := str "1/2/2026"; syncTemplate := None |}
                           {| pane := readyWorld; titleValue := str "Notes"; body := [] |})
                   eq_refl)). }
  apply (proj2 (proj2 (insertTemplate_outcome
                         {| now := str "1/2/2026";
                            syncTemplate := Some {| message := None |} |}
                         {| pane := readyWorld; titleValue := str "Notes"; body := [] |})
                 {| message := None |} eq_refl)).
Defined.


(** * Normalization settles *)

Lemma hasPair_cons2 a b x y s :
  hasPair a b (x :: y :: s) = ((x =? a) && (y =? b)) || hasPair a b (y :: s).
Proof. reflexivity. Qed.

Lemma hasPair_cons a b c s : hasPair a b s = true -> hasPair a b (c :: s) = true.
Proof.
  destruct s as [|y s]; [discriminate|].
  intros H; rewrite hasPair_cons2, H; apply orb_true_r.
Qed.

(** Without an occurrence of the pattern nothing is replaced. *)
Lemma replace2_no_pair a b rep s : hasPair a b s = false -> replace2 a b rep s = s.
Proof.
  induction s as [|x s IH]; [reflexivity|].
  destruct s as [|y s]; [reflexivity|].
  rewrite hasPair_cons2, replace2_cons2; intros H.
  apply orb_false_elim in H; destruct H as [H1 H2].
  rewrite H1, IH by assumption; reflexivity.
Qed.

Lemma replace2_head a b r y s :
  exists os, replace2 a b [r] (y :: s) = r :: os \/ replace2 a b [r] (y :: s) = y :: os.
Proof.
  destruct s as [|z s]; [exists []; right; reflexivity|].
  rewrite replace2_cons2. destruct ((y =? a) && (z =? b)); eexists; simpl; eauto.
Qed.

(** Two units that are neighbours after a replacement were neighbours
    before it, at a place where the pattern did not match, unless one of
    them is the replacement. *)
Lemma replace2_pairs a b r x y s :
  hasPair x y (replace2 a b [r] s) = true ->
  x = r \/ y = r \/ (hasPair x y s = true /\ ~ (x = a /\ y = b)).
Proof.
  assert (H : forall s,
    (hasPair x y (replace2 a b [r] s) = true ->
     x = r \/ y = r \/ (hasPair x y s = true /\ ~ (x = a /\ y = b))) /\
    (forall x0, hasPair x y (replace2 a b [r] (x0 :: s)) = true ->
     x = r \/ y = r \/ (hasPair x y (x0 :: s) = true /\ ~ (x = a /\ y = b)))).
  { clear s; induction s as [|y0 s [IH1 IH2]]; split.
    - discriminate.
    - intros x0; discriminate.
    - apply IH2.
    - intros x0; rewrite replace2_cons2.
      destruct ((x0 =? a) && (y0 =? b)) eqn:E.
      + cbn [app]. destruct (replace2 a b [r] s) as [|o os] eqn:Es; [discriminate|].
        rewrite hasPair_cons2; intros H; apply orb_prop in H; destruct H as [H|H].
        * apply andb_prop in H; destruct H as [H _]; apply Z.eqb_eq in H; auto.
        * destruct (IH1 H) as [Hx|[Hy|[Hp Hn]]]; auto.
          right; right; split; [|assumption]. do 2 apply hasPair_cons; assumption.
      + destruct (replace2_head a b r y0 s) as [os Hos].
        destruct Hos as [Hos|Hos]; rewrite <- Hos || idtac.
        * intros H. remember (replace2 a b [r] (y0 :: s)) as R eqn:ER.
          rewrite Hos in H. rewrite hasPair_cons2 in H.
          apply orb_prop in H; destruct H as [H|H].
          -- apply andb_prop in H; destruct H as [_ H]; apply Z.eqb_eq in H; auto.
          -- rewrite <- Hos, ER in H.
             destruct (IH2 y0 H) as [Hx|[Hy|[Hp Hn]]]; auto.
             right; right; split; [apply hasPair_cons|]; assumption.
        * intros H. remember (replace2 a b [r] (y0 :: s)) as R eqn:ER.
          rewrite Hos in H. rewrite hasPair_cons2 in H.
          apply orb_prop in H; destruct H as [H|H].
          -- apply andb_prop in H; destruct H as [H1 H2].
             apply Z.eqb_eq in H1, H2; subst x0 y0.
             right; right; split.
             ++ rewrite hasPair_cons2, !Z.eqb_refl; reflexivity.
             ++ intros [-> ->]; rewrite !Z.eqb_refl in E; discriminate.
          -- rewrite <- Hos, ER in H.
             destruct (IH2 y0 H) as [Hx|[Hy|[Hp Hn]]]; auto.
             right; right; split; [apply hasPair_cons|]; assumption. }
  apply H.
Qed.

Lemma replace1_pairs a r x y s :
  hasPair x y (replace1 a [r] s) = true -> x = r \/ y = r \/ hasPair x y s = true.
Proof.
  induction s as [|x0 s IH]; [discriminate|].
  destruct s as [|y0 s]; [simpl; destruct (x0 =? a); discriminate|].
  intros H.
  assert (Hf : forall c : Z, (if c =? a then [r] ++ replace1 a [r] s
                              else c :: replace1 a [r] s)
                             = (if c =? a then r else c) :: replace1 a [r] s)
    by (intros c; destruct (c =? a); reflexivity).
  assert (E : replace1 a [r] (x0 :: y0 :: s)
              = (if x0 =? a then r else x0) :: replace1 a [r] (y0 :: s))
    by (simpl; destruct (x0 =? a); reflexivity).
  rewrite E in H. clear E.
  assert (E : replace1 a [r] (y0 :: s)
              = (if y0 =? a then r else y0) :: replace1 a [r] s)
    by (simpl; destruct (y0 =? a); reflexivity).
  rewrite E, hasPair_cons2 in H. apply orb_prop in H; destruct H as [H|H].
  - apply andb_prop in H; destruct H as [H1 H2]. apply Z.eqb_eq in H1, H2.
    destruct (x0 =? a); [left; congruence|].
    destruct (y0 =? a); [right; left; congruence|].
    subst; right; right. rewrite hasPair_cons2, !Z.eqb_refl; reflexivity.
  - rewrite <- E in H. destruct (IH H) as [Hx|[Hy|Hp]]; auto.
    right; right; apply hasPair_cons; assumption.
Qed.

Lemma replace2_keeps_no_pair a b r x y s :
  x <> r -> y <> r -> hasPair x y s = false ->
  hasPair x y (replace2 a b [r] s) = false.
Proof.
  intros Hx Hy H. destruct (hasPair x y (replace2 a b [r] s)) eqn:E; [|reflexivity].
  apply replace2_pairs in E; destruct E as [E|[E|[E _]]]; congruence.
Qed.

Lemma replace1_keeps_no_pair a r x y s :
  x <> r -> y <> r -> hasPair x y s = false ->
  hasPair x y (replace1 a [r] s) = false.
Proof.
  intros Hx Hy H. destruct (hasPair x y (replace1 a [r] s)) eqn:E; [|reflexivity].
  apply replace1_pairs in E; destruct E as [E|[E|E]]; congruence.
Qed.

Lemma replace2_removes_pairs a b r s :
  a <> r -> b <> r -> hasPair a b (replace2 a b [r] s) = false.
Proof.
  intros Ha Hb. destruct (hasPair a b (replace2 a b [r] s)) eqn:E; [|reflexivity].
  apply replace2_pairs in E; destruct E as [E|[E|[_ E]]]; try congruence.
  exfalso; apply E; split; reflexivity.
Qed.

Lemma normalize_no_escape t :
  hasPair Ch.backslash Ch.r (normalize t) = false /\
  hasPair Ch.backslash Ch.n (normalize t) = false.
Proof.
  unfold normalize, normalizeBreaks, normalizeEscapes; split.
  - repeat apply replace1_keeps_no_pair; try discriminate.
    do 2 (apply replace2_keeps_no_pair; try discriminate).
    apply replace2_removes_pairs; discriminate.
  - repeat apply replace1_keeps_no_pair; try discriminate.
    apply replace2_keeps_no_pair; try discriminate.
    apply replace2_removes_pairs; discriminate.
Qed.

(** X21: the normalized text holds no literal escape sequence and no
    line break other than the linefeed, and normalizing it again changes
    nothing. *)
Theorem normalize_idempotent (t : jsstring) :
  hasPair Ch.backslash Ch.r (normalize t) = false /\
  hasPair Ch.backslash Ch.n (normalize t) = false /\
  includes Ch.CR (normalize t) = false /\
  includes Ch.LS (normalize t) = false /\
  includes Ch.PS (normalize t) = false /\
  normalize (normalize t) = normalize t.
Proof.
  destruct (normalize_no_escape t) as [Hr Hn].
  assert (Hc : ~ In Ch.CR (normalize t) /\ ~ In Ch.LS (normalize t) /\
               ~ In Ch.PS (normalize t)).
  { repeat split; intros H; apply normalize_canonical in H; tauto. }
  destruct Hc as (Hcr & Hls & Hps).
  repeat split; try assumption; try (apply includes_not_In; assumption).
  unfold normalize at 1; unfold normalizeEscapes, normalizeBreaks.
  rewrite (replace2_no_pair Ch.backslash Ch.r) by assumption.
  rewrite (replace2_no_pair Ch.backslash Ch.n) by assumption.
  rewrite (replace2_absent Ch.CR) by assumption.
  rewrite (replace1_absent Ch.CR) by assumption.
  rewrite (replace1_absent Ch.LS) by assumption.
  rewrite (replace1_absent Ch.PS) by assumption.
  reflexivity.
Qed.
